(** * aiograpi.reqwests: the streaming Zstandard decoder and the session glue

    A shallow embedding of [src/aiograpi/reqwests.py].

    - [ZstdDecoder] (lines 38-57) is embedded over an interface for the
      decompression object of the [zstandard] package, which the decoder
      drives but does not implement.
    - [_proxy_kwargs], [request] and [Session.request] (lines 65-148) are
      embedded over Python dictionaries modelled as finite maps. *)

From Stdlib Require Import ZArith Lia List Strings.Byte.
From stdpp Require Import base option list strings gmap fin_maps.

Abbreviation bytes := (list byte).

(** ** Exceptions and results *)

(** The exceptions the embedded code can raise: [zstd.ZstdError] comes out of
    the decompression object, [httpx.DecodingError] out of
    [ZstdDecoder.flush], and [AttributeError] out of an attribute access on
    [None]. *)
Inductive exn := ZstdError | DecodingError | AttributeError.

Inductive result (A : Type) :=
| Ok (a : A)
| Raise (e : exn).
Arguments Ok {A} a.
Arguments Raise {A} e.

(** ** The decompression object

    [zstd.ZstdDecompressor().decompressobj()] returns a mutable object with
    the methods [decompress] and [flush] and the attributes [eof] and
    [unused_data].  Mutation is modelled by state passing: [decompress]
    returns the object after the call together with the bytes it produced,
    or the exception it raised.  [obj_flush] is the object's [flush]. *)
Class DecompressionObj := {
  dobj : Type;
  decompressobj : dobj;
  decompress : dobj → bytes → result (dobj * bytes);
  obj_flush : dobj → bytes;
  eof : dobj → bool;
  unused_data : dobj → bytes
}.

(** What the decoder relies on from the object, as the [zstandard] package
    documents it for a [decompressobj] (one frame per object):
    - a new object is not at end of stream;
    - an object that is not at end of stream accepts empty input and stays
      as it is;
    - an object at end of stream is finished, a further [decompress] raises
      [ZstdError] ("cannot use a decompressobj multiple times");
    - input may arrive in pieces: feeding [a ++ b] behaves as feeding [a]
      and then [b], where an error in [a] is an error of the whole, and an
      object that [a] finished leaves [b] in [unused_data];
    - an object that reaches end of stream has consumed at least one byte
      of the input of that call;
    - [flush] is a no-op returning no bytes. *)
Class DecompressionObjLaws `{Obj : DecompressionObj} : Prop := {
  new_not_eof : eof decompressobj = false;
  decompress_nil o : eof o = false → decompress o [] = Ok (o, []);
  decompress_finished o data :
    eof o = true → decompress o data = Raise ZstdError;
  decompress_app_raise o a b e :
    decompress o a = Raise e → decompress o (a ++ b) = Raise e;
  decompress_app_eof o a b o1 out1 :
    decompress o a = Ok (o1, out1) → eof o1 = true →
    ∃ o2, decompress o (a ++ b) = Ok (o2, out1)
          ∧ eof o2 = true ∧ unused_data o2 = unused_data o1 ++ b;
  decompress_app_open o a b o1 out1 :
    decompress o a = Ok (o1, out1) → eof o1 = false →
    decompress o (a ++ b) =
      match decompress o1 b with
      | Ok (o2, out2) => Ok (o2, out1 ++ out2)
      | Raise e => Raise e
      end;
  decompress_unused o data o' out :
    decompress o data = Ok (o', out) → eof o' = true →
    length (unused_data o') < length data;
  obj_flush_empty o : obj_flush o = []
}.

(** ** class ZstdDecoder *)

Module ZstdDecoder.
Section decoder.
Context `{Obj : DecompressionObj}.

(** The only attribute of an instance is [self.decompressor]. *)
Record t := { decompressor : dobj }.

Definition __init__ : t := {| decompressor := decompressobj |}.

(** The [while] loop of [decode] (lines 47-50).  Python gives no bound for
    it, so the embedding counts iterations down from [fuel] and answers
    [None] when the count is used up. *)
Fixpoint decode_while (fuel : nat) (o : dobj) (data_parts : list bytes)
  : option (result (dobj * list bytes)) :=
  match eof o, unused_data o with
  | true, _ :: _ =>
      match fuel with
      | 0 => None
      | S fuel' =>
          let unused := unused_data o in
          match decompress decompressobj unused with
          | Ok (o', part) => decode_while fuel' o' (data_parts ++ [part])
          | Raise e => Some (Raise e)
          end
      end
  | _, _ => Some (Ok (o, data_parts))
  end.

(** [decode] (lines 42-51).  The loop is given [length data] passes: an
    object that ends a frame has consumed at least one byte of what it was
    fed, so every pass feeds fewer bytes than the one before. *)
Definition decode (self : t) (data : bytes) : option (result (t * bytes)) :=
  match data with
  | [] => Some (Ok (self, []))
  | _ :: _ =>
      match decompress (decompressor self) data with
      | Raise e => Some (Raise e)
      | Ok (o, part) =>
          match decode_while (length data) o [part] with
          | None => None
          | Some (Raise e) => Some (Raise e)
          | Some (Ok (o', data_parts)) =>
              Some (Ok ({| decompressor := o' |}, concat data_parts))
          end
      end
  end.

(** [flush] (lines 53-57). *)
Definition flush (self : t) : result bytes :=
  let ret := obj_flush (decompressor self) in
  if eof (decompressor self) then Ok ret else Raise DecodingError.

(** How the transport drives a decoder: [decode] once per body chunk, in
    order.  The outputs are concatenated. *)
Fixpoint decode_all (self : t) (chunks : list bytes)
  : option (result (t * bytes)) :=
  match chunks with
  | [] => Some (Ok (self, []))
  | c :: cs =>
      match decode self c with
      | Some (Ok (self', out)) =>
          match decode_all self' cs with
          | Some (Ok (self'', outs)) => Some (Ok (self'', out ++ outs))
          | r => r
          end
      | r => r
      end
  end.

(** A whole response body: a new decoder, every chunk through [decode],
    then [flush] once. *)
Definition body_output (chunks : list bytes) : option (result bytes) :=
  match decode_all __init__ chunks with
  | Some (Ok (self, out)) =>
      match flush self with
      | Ok ret => Some (Ok (out ++ ret))
      | Raise e => Some (Raise e)
      end
  | Some (Raise e) => Some (Raise e)
  | None => None
  end.

(** The object is at end of stream with unused trailing bytes pending. *)
Definition carryover_pending (self : t) : Prop :=
  eof (decompressor self) = true ∧ unused_data (decompressor self) ≠ [].

(** Decoder states that a new instance reaches through [decode] calls. *)
Inductive reachable : t → Prop :=
| reach_init : reachable __init__
| reach_decode self data self' out :
    reachable self →
    decode self data = Some (Ok (self', out)) →
    reachable self'.

(** [f] is one complete frame holding the payload [p]: a new object fed
    [f] produces [p], ends at end of stream and leaves nothing unused. *)
Definition frame_of (f p : bytes) : Prop :=
  ∃ o, decompress decompressobj f = Ok (o, p)
       ∧ eof o = true ∧ unused_data o = [].

(** The object [o] is what a new object becomes after the bytes [q], it
    has produced [out] and its frame is still open. *)
Definition fed (q : bytes) (o : dobj) (out : bytes) : Prop :=
  decompress decompressobj q = Ok (o, out) ∧ eof o = false.

(** The object has ended its frame exactly at the end of its input. *)
Definition at_boundary (o : dobj) : Prop :=
  eof o = true ∧ unused_data o = [].

(** With [r] the rest of the frame that is open and [fs] the frames after
    it: some initial run of the chunks [cs] ends exactly where a frame
    ends while at least one more frame follows. *)
Definition aligned_after (r : bytes) (fs cs : list bytes) : Prop :=
  ∃ fa fb ca cb,
    fs = fa ++ fb ∧ cs = ca ++ cb ∧ fb ≠ [] ∧ concat ca = r ++ concat fa.

(** The same for a whole stream of frames: a chunk ends exactly on a frame
    boundary inside the stream. *)
Definition aligned_cut (fs cs : list bytes) : Prop :=
  ∃ fa fb ca cb,
    fs = fa ++ fb ∧ cs = ca ++ cb ∧ fa ≠ [] ∧ fb ≠ []
    ∧ concat ca = concat fa.
End decoder.
End ZstdDecoder.

(** ** A reference decompression object

    A small frame format with the object protocol above, on which the
    decoder can be run.  A frame is the magic byte [xfd], then one pair
    [x01; b] per payload byte [b], then the end marker [x00].  Any other byte
    where the magic or a tag is expected is malformed input. *)
Module RefCodec.
Definition magic : byte := xfd.

Inductive obj :=
| AtMagic
| AtTag
| AtLiteral
| Finished (unused : bytes).

Fixpoint scan (st : obj) (data : bytes) : result (obj * bytes) :=
  match data with
  | [] => Ok (st, [])
  | b :: rest =>
      match st with
      | AtMagic =>
          if Byte.eqb b magic then scan AtTag rest else Raise ZstdError
      | AtTag =>
          if Byte.eqb b x00 then Ok (Finished rest, [])
          else if Byte.eqb b x01 then scan AtLiteral rest
          else Raise ZstdError
      | AtLiteral =>
          match scan AtTag rest with
          | Ok (st', out) => Ok (st', b :: out)
          | Raise e => Raise e
          end
      | Finished _ => Raise ZstdError
      end
  end.

Definition obj_decompress (st : obj) (data : bytes) : result (obj * bytes) :=
  match st with
  | Finished _ => Raise ZstdError
  | _ => scan st data
  end.

Definition obj_eof (st : obj) : bool :=
  match st with Finished _ => true | _ => false end.

Definition obj_unused_data (st : obj) : bytes :=
  match st with Finished unused => unused | _ => [] end.

#[export] Instance ref_obj : DecompressionObj := {|
  dobj := obj;
  decompressobj := AtMagic;
  decompress := obj_decompress;
  obj_flush := λ _, [];
  eof := obj_eof;
  unused_data := obj_unused_data
|}.

(** One frame for the payload [p]. *)
Definition compress (p : bytes) : bytes :=
  magic :: flat_map (λ b, [x01; b]) p ++ [x00].

(** The payload [b"..."]. *)
Definition payload (s : string) : bytes := String.list_byte_of_string s.

(** A body cut into chunks of [n] bytes, the last one shorter; [fuel]
    bounds the number of chunks. *)
Fixpoint chunks_of (fuel n : nat) (body : bytes) : list bytes :=
  match fuel, body with
  | 0, _ | _, [] => []
  | S fuel', _ => take n body :: chunks_of fuel' n (drop n body)
  end.

(** The frames of [b"alpha"], [b"beta"] and [b"gamma"] and their payloads. *)
Definition abg_payloads : list bytes :=
  [payload "alpha"; payload "beta"; payload "gamma"].

Definition abg_frames : list bytes := map compress abg_payloads.
End RefCodec.

(** ** Python values and dictionaries

    The values that travel through the request functions.  A dictionary
    that is only looked up, merged and filtered is a finite map; a
    dictionary whose first value is taken ([next(iter(d.values()))]) keeps
    its insertion order as an association list. *)
#[warnings="-register-all"]
Inductive value :=
| VNone
| VBool (b : bool)
| VInt (n : Z)
| VStr (s : string)
| VDict (items : list (string * value)).

Definition is_none (v : value) : bool :=
  match v with VNone => true | _ => false end.

(** Python truth value testing. *)
Definition truthy (v : value) : bool :=
  match v with
  | VNone => false
  | VBool b => b
  | VInt n => negb (n =? 0)%Z
  | VStr s => match s with EmptyString => false | String _ _ => true end
  | VDict items => match items with [] => false | _ :: _ => true end
  end.

(** [a or b]. *)
Definition py_or (a b : value) : value := if truthy a then a else b.

(** [d.get(k)]: the value stored under [k], or [None]. *)
Fixpoint dict_get (items : list (string * value)) (k : string) : value :=
  match items with
  | [] => VNone
  | (k', v) :: rest => if String.eqb k' k then v else dict_get rest k
  end.

(** ** Module-level definitions of reqwests.py *)

Definition DEFAULT_TIMEOUT : Z := 45.

(** [_HAS_PROXIES_PARAM] (line 35) is computed at import time from the
    signature of the installed [httpx.AsyncClient]. *)
Class HttpxVersion := { _HAS_PROXIES_PARAM : bool }.

Inductive ClientState := UNOPENED | OPENED | CLOSED.

(** An [httpx.AsyncClient]: the keyword arguments it was built with and its
    state. *)
Record AsyncClient := {
  client_kwargs : gmap string value;
  _state : ClientState
}.

(** A call of [client.request]: the positional arguments, the [headers=]
    keyword when it is passed by name, and the remaining keyword
    arguments. *)
Record call := {
  call_args : list value;
  call_headers : option (gmap string value);
  call_kwargs : gmap string value
}.

(** The keys that [_proxy_kwargs] looks up in a proxy map, in the order of
    lines 74-78. *)
Definition proxy_keys : list string :=
  ["all://"; "https"; "http"; "https://"; "http://"].

Section requests.
Context `{Ver : HttpxVersion}.

(** [_proxy_kwargs] (lines 65-84). *)
Definition _proxy_kwargs (proxy_or_map : value) : gmap string value :=
  if _HAS_PROXIES_PARAM then {[ "proxies" := proxy_or_map ]}
  else
    let proxy :=
      match proxy_or_map with
      | VDict items =>
          let proxy :=
            py_or (py_or (py_or (py_or (dict_get items "all://")
                                       (dict_get items "https"))
                                (dict_get items "http"))
                         (dict_get items "https://"))
                  (dict_get items "http://") in
          match proxy, items with
          | VNone, (_, v) :: _ => v
          | _, _ => proxy
          end
      | _ => proxy_or_map
      end in
    {[ "proxy" := proxy ]}.

(** Lines 88-89 and 139-140. *)
Definition with_default_timeout (kwargs : gmap string value)
  : gmap string value :=
  match kwargs !! "timeout" with
  | None => <[ "timeout" := VInt DEFAULT_TIMEOUT ]> kwargs
  | Some _ => kwargs
  end.

(** [request] (lines 87-93): the keyword arguments of the client that is
    built, and the call made on it. *)
Definition request (method url proxy proxies : value)
           (kwargs : gmap string value) : gmap string value * call :=
  let kwargs := with_default_timeout kwargs in
  let client_kwargs : gmap string value :=
    {[ "verify" := VBool false; "follow_redirects" := VBool true ]} in
  let client_kwargs :=
    _proxy_kwargs (if is_none proxies then proxy else proxies)
      ∪ client_kwargs in
  (client_kwargs,
   {| call_args := [method; url]; call_headers := None;
      call_kwargs := kwargs |}).
End requests.

(** ** class Session *)

Module Session.
Record t := {
  headers : gmap string value;
  verify : bool;
  _client : option AsyncClient;
  _proxies : value
}.

Section session.
Context `{Ver : HttpxVersion}.

Definition __init__ : t :=
  {| headers := ∅; verify := false; _client := None; _proxies := VNone |}.

(** [_set_client] (lines 123-126). *)
Definition _set_client (self : t) : t :=
  let client_kwargs : gmap string value :=
    {[ "verify" := VBool (verify self); "follow_redirects" := VBool true ]} in
  let client_kwargs := _proxy_kwargs (_proxies self) ∪ client_kwargs in
  {| headers := headers self; verify := verify self;
     _client := Some {| client_kwargs := client_kwargs; _state := UNOPENED |};
     _proxies := _proxies self |}.

(** The [proxies] setter (lines 118-121). *)
Definition set_proxies (self : t) (p : value) : t :=
  _set_client {| headers := headers self; verify := verify self;
                 _client := _client self; _proxies := p |}.

(** [client.__aenter__()] when the client is still unopened (lines
    141-142). *)
Definition enter (c : AsyncClient) : AsyncClient :=
  match _state c with
  | UNOPENED => {| client_kwargs := client_kwargs c; _state := OPENED |}
  | _ => c
  end.

(** [request] (lines 138-148): the session after the call and the call
    made on its client.  [self._client] is [None] until [proxies] has
    been set, and [None._state] raises. *)
Definition request (self : t) (args : list value)
           (hdrs : option (gmap string value)) (proxies : value)
           (kwargs : gmap string value) : result (t * call) :=
  let kwargs := with_default_timeout kwargs in
  match _client self with
  | None => Raise AttributeError
  | Some client =>
      let client := enter client in
      let hdrs : gmap string value := default ∅ hdrs ∪ headers self in
      let hdrs := filter (λ kv, is_none kv.2 = false) hdrs in
      let kwargs := filter (λ kv, truthy kv.2 = true) kwargs in
      let kwargs :=
        if is_none proxies then kwargs
        else _proxy_kwargs proxies ∪ kwargs in
      Ok ({| headers := headers self; verify := verify self;
             _client := Some client; _proxies := _proxies self |},
          {| call_args := args; call_headers := Some hdrs;
             call_kwargs := kwargs |})
  end.

(** The [proxies] getter (lines 114-116). *)
Definition proxies (self : t) : value := _proxies self.

(** [__aenter__] (lines 128-129). *)
Definition __aenter__ (self : t) : t := self.

(** [client.__aexit__()]: the client is closed. *)
Definition exit (c : AsyncClient) : AsyncClient :=
  {| client_kwargs := client_kwargs c; _state := CLOSED |}.

(** [_close] (lines 134-136): only a client that exists and is opened is
    closed. *)
Definition _close (self : t) : t :=
  match _client self with
  | Some client =>
      match _state client with
      | OPENED =>
          {| headers := headers self; verify := verify self;
             _client := Some (exit client); _proxies := _proxies self |}
      | _ => self
      end
  | None => self
  end.

(** [__aexit__] (lines 131-132). *)
Definition __aexit__ (self : t) : t := _close self.

(** [get] and [post] (lines 150-154). *)
Definition get (self : t) (args : list value)
           (hdrs : option (gmap string value)) (proxies : value)
           (kwargs : gmap string value) : result (t * call) :=
  request self (VStr "get" :: args) hdrs proxies kwargs.

Definition post (self : t) (args : list value)
           (hdrs : option (gmap string value)) (proxies : value)
           (kwargs : gmap string value) : result (t * call) :=
  request self (VStr "post" :: args) hdrs proxies kwargs.
End session.
End Session.

(** * Theorems *)

Module RefCodecFacts.
Import RefCodec.

Lemma scan_app_raise st a b e :
  obj_eof st = false → scan st a = Raise e → scan st (a ++ b) = Raise e.
Proof.
  revert st e. induction a as [|x a IH]; intros st e Hst H.
  - destruct st; discriminate.
  - destruct st; simpl in *; try discriminate.
    + destruct (Byte.eqb x magic); [auto | done].
    + destruct (Byte.eqb x x00); [done|].
      destruct (Byte.eqb x x01); [auto | done].
    + destruct (scan AtTag a) as [[st' out]|e'] eqn:E; [done|].
      by rewrite (IH AtTag e' eq_refl E).
Qed.

Lemma scan_app_eof st a b u out :
  obj_eof st = false → scan st a = Ok (Finished u, out) →
  scan st (a ++ b) = Ok (Finished (u ++ b), out).
Proof.
  revert st out. induction a as [|x a IH]; intros st out Hst H.
  - destruct st; simplify_eq/=.
  - destruct st; simpl in *; try discriminate.
    + destruct (Byte.eqb x magic); [auto | done].
    + destruct (Byte.eqb x x00); [by simplify_eq|].
      destruct (Byte.eqb x x01); [auto | done].
    + destruct (scan AtTag a) as [[st' out']|e'] eqn:E; [|done].
      simplify_eq. by rewrite (IH AtTag out' eq_refl E).
Qed.

Lemma scan_app_open st a b st1 out1 :
  scan st a = Ok (st1, out1) → obj_eof st1 = false →
  scan st (a ++ b) =
    match scan st1 b with
    | Ok (st2, out2) => Ok (st2, out1 ++ out2)
    | Raise e => Raise e
    end.
Proof.
  revert st out1. induction a as [|x a IH]; intros st out1 H Hst1.
  - simpl in H. simplify_eq. simpl. by destruct (scan st1 b) as [[??]|?].
  - destruct st; simpl in *; try discriminate.
    + destruct (Byte.eqb x magic); [auto | done].
    + destruct (Byte.eqb x x00); [by simplify_eq|].
      destruct (Byte.eqb x x01); [auto | done].
    + destruct (scan AtTag a) as [[st' out']|e'] eqn:E; [|done].
      simplify_eq. rewrite (IH AtTag out' E Hst1).
      by destruct (scan st1 b) as [[??]|?].
Qed.

Lemma scan_unused st data st' out :
  obj_eof st = false → scan st data = Ok (st', out) → obj_eof st' = true →
  length (obj_unused_data st') < length data.
Proof.
  revert st out. induction data as [|x a IH]; intros st out Hst H Hst'.
  - simpl in H. simplify_eq. congruence.
  - destruct st; simpl in *; try discriminate.
    + destruct (Byte.eqb x magic); [|done].
      specialize (IH AtTag out eq_refl H Hst'). lia.
    + destruct (Byte.eqb x x00); [simplify_eq/=; lia|].
      destruct (Byte.eqb x x01); [|done].
      specialize (IH AtLiteral out eq_refl H Hst'). lia.
    + destruct (scan AtTag a) as [[st2 out']|e'] eqn:E; [|done].
      simplify_eq. specialize (IH AtTag out' eq_refl E Hst'). lia.
Qed.

Lemma scan_body p :
  scan AtTag (flat_map (λ b, [x01; b]) p ++ [x00]) = Ok (Finished [], p).
Proof. induction p as [|b p IH]; [done|]. simpl. by rewrite IH. Qed.

(** The reference object obeys the object protocol. *)
Lemma ref_obj_laws : DecompressionObjLaws (Obj := ref_obj).
Proof.
  split; simpl.
  - done.
  - by intros [].
  - by intros [] data.
  - intros st a b e H. destruct st; simpl in *; try done;
      by apply scan_app_raise.
  - intros st a b [| | |u] out1 H Heof; try discriminate.
    exists (Finished (u ++ b)). split_and!; [|done..].
    destruct st; simpl in *; try done; by apply scan_app_eof.
  - intros st a b st1 out1 H Heof.
    assert (obj_decompress st1 b = scan st1 b) as ->
      by (destruct st1; [reflexivity..|discriminate]).
    destruct st; simpl in *; try done; by apply scan_app_open.
  - intros st data st' out H Heof.
    destruct st; simpl in H; try done;
      (eapply scan_unused; [|exact H|exact Heof]; reflexivity).
  - done.
Qed.

(** Every payload has a frame. *)
Lemma compress_frame_of p : ZstdDecoder.frame_of (compress p) p.
Proof.
  exists (Finished []). split_and!; [|done..].
  simpl. unfold compress. simpl. apply scan_body.
Qed.
End RefCodecFacts.

(** ** The decoder over any object that obeys the protocol *)

Module ZstdDecoderFacts.
Import ZstdDecoder.
Section facts.
Context `{Obj : DecompressionObj}.

(** *** Facts that need no law *)

Lemma decode_while_done fuel o parts :
  eof o = false ∨ unused_data o = [] →
  decode_while fuel o parts = Some (Ok (o, parts)).
Proof.
  intros [H|H]; destruct fuel; simpl; rewrite H; try done;
    by destruct (eof o).
Qed.

Lemma decode_while_step fuel o parts :
  eof o = true → unused_data o ≠ [] →
  decode_while (S fuel) o parts =
    match decompress decompressobj (unused_data o) with
    | Ok (o', part) => decode_while fuel o' (parts ++ [part])
    | Raise e => Some (Raise e)
    end.
Proof.
  intros He Hu. simpl. rewrite He.
  by destruct (unused_data o) as [|b u].
Qed.

Lemma decode_while_exit fuel o parts o' parts' :
  decode_while fuel o parts = Some (Ok (o', parts')) →
  ¬ (eof o' = true ∧ unused_data o' ≠ []).
Proof.
  revert o parts. induction fuel as [|fuel IH]; intros o parts; simpl.
  - destruct (eof o) eqn:He, (unused_data o) eqn:Hu; intros ?;
      simplify_eq; intros [??]; congruence.
  - destruct (eof o) eqn:He, (unused_data o) as [|b u] eqn:Hu;
      try (intros ?; simplify_eq; intros [??]; congruence).
    destruct (decompress decompressobj (b :: u)) as [[o1 part]|e];
      [apply IH | done].
Qed.

Lemma decode_nonempty self data :
  data ≠ [] →
  decode self data =
    match decompress (decompressor self) data with
    | Raise e => Some (Raise e)
    | Ok (o, part) =>
        match decode_while (length data) o [part] with
        | None => None
        | Some (Raise e) => Some (Raise e)
        | Some (Ok (o', data_parts)) =>
            Some (Ok ({| decompressor := o' |}, concat data_parts))
        end
    end.
Proof. by destruct data. Qed.

(** A chunk after which the object has no carry-over is a single
    [decompress] call. *)
Lemma decode_single self data o out :
  data ≠ [] →
  decompress (decompressor self) data = Ok (o, out) →
  eof o = false ∨ unused_data o = [] →
  decode self data = Some (Ok ({| decompressor := o |}, out)).
Proof.
  intros Hne Hd Ho. rewrite decode_nonempty, Hd by done.
  rewrite decode_while_done by done. simpl. by rewrite app_nil_r.
Qed.

Lemma decode_all_app self xs ys :
  decode_all self (xs ++ ys) =
    match decode_all self xs with
    | Some (Ok (self', out)) =>
        match decode_all self' ys with
        | Some (Ok (self'', out')) => Some (Ok (self'', out ++ out'))
        | r => r
        end
    | r => r
    end.
Proof.
  revert self. induction xs as [|c xs IH]; intros self; simpl.
  - by destruct (decode_all self ys) as [[[??]|?]|].
  - destruct (decode self c) as [[[self1 out1]|?]|]; [|done..].
    rewrite IH. destruct (decode_all self1 xs) as [[[self2 out2]|?]|];
      [|done..].
    destruct (decode_all self2 ys) as [[[self3 out3]|?]|]; [|done..].
    by rewrite app_assoc.
Qed.

Lemma decode_all_empties self cs :
  concat cs = [] → decode_all self cs = Some (Ok (self, [])).
Proof.
  induction cs as [|c cs IH]; [done|]. simpl. intros H.
  apply app_eq_nil in H as [-> H]. simpl. by rewrite IH.
Qed.
End facts.

Section protocol.
Context `{Obj : DecompressionObj} {Laws : DecompressionObjLaws}.

(** *** Frames and their pieces *)

Lemma fed_nil : fed [] decompressobj [].
Proof. split; [apply decompress_nil|]; apply new_not_eof. Qed.

Lemma frame_nonempty f p : frame_of f p → f ≠ [].
Proof.
  intros (o & Hd & He & _) ->.
  rewrite decompress_nil in Hd by apply new_not_eof.
  simplify_eq. rewrite new_not_eof in He. done.
Qed.

Lemma frame_with_rest f p rest :
  frame_of f p →
  ∃ o, decompress decompressobj (f ++ rest) = Ok (o, p)
       ∧ eof o = true ∧ unused_data o = rest.
Proof.
  intros (o & Hd & He & Hu).
  destruct (decompress_app_eof _ _ rest _ _ Hd He) as (o2 & ? & ? & Hu2).
  exists o2. by rewrite Hu in Hu2.
Qed.

Lemma frame_prefix q r p :
  frame_of (q ++ r) p → r ≠ [] → ∃ o out, fed q o out.
Proof.
  intros (o & Hd & He & Hu) Hr.
  destruct (decompress decompressobj q) as [[o1 out1]|e] eqn:Hq.
  - destruct (eof o1) eqn:He1; [|by exists o1, out1].
    destruct (decompress_app_eof _ _ r _ _ Hq He1) as (o2 & Hd2 & _ & Hu2).
    rewrite Hd in Hd2. simplify_eq. rewrite Hu in Hu2.
    symmetry in Hu2. by apply app_eq_nil in Hu2 as [_ ?].
  - rewrite (decompress_app_raise _ _ r _ Hq) in Hd. done.
Qed.

(** Feeding an open object more bytes of its frame, short of the end. *)
Lemma fed_extend q c r p o out :
  fed q o out → frame_of (q ++ c ++ r) p → r ≠ [] →
  ∃ o' out', decompress o c = Ok (o', out') ∧ fed (q ++ c) o' (out ++ out').
Proof.
  intros [Hq He] Hf Hr. rewrite app_assoc in Hf.
  destruct (frame_prefix _ _ _ Hf Hr) as (o1 & out1 & Hqc & He1).
  pose proof Hqc as Hc.
  rewrite (decompress_app_open _ _ c _ _ Hq He) in Hc.
  destruct (decompress o c) as [[o' out']|e]; [|done].
  simplify_eq. by exists o1, out'.
Qed.

(** Feeding an open object the rest of its frame and whatever follows. *)
Lemma fed_finish q r rest p o out :
  fed q o out → frame_of (q ++ r) p →
  ∃ o' out', decompress o (r ++ rest) = Ok (o', out')
             ∧ out ++ out' = p ∧ eof o' = true ∧ unused_data o' = rest.
Proof.
  intros [Hq He] Hf.
  destruct (frame_with_rest _ _ rest Hf) as (o1 & Hd & He1 & Hu1).
  rewrite <-app_assoc, (decompress_app_open _ _ _ _ _ Hq He) in Hd.
  destruct (decompress o (r ++ rest)) as [[o' out']|e]; [|done].
  simplify_eq. by exists o1, out'.
Qed.

Lemma fed_rest_nonempty q r p o out :
  fed q o out → frame_of (q ++ r) p → r ≠ [].
Proof.
  intros [Hq He] (o1 & Hd & He1 & _) ->. rewrite app_nil_r in Hd.
  congruence.
Qed.

(** *** The loop returns *)

Lemma decode_while_total fuel o parts :
  (eof o = true → length (unused_data o) ≤ fuel) →
  ∃ r, decode_while fuel o parts = Some r.
Proof.
  revert o parts. induction fuel as [|fuel IH]; intros o parts Hlen.
  - destruct (eof o) eqn:He; [|rewrite decode_while_done; eauto].
    specialize (Hlen eq_refl).
    rewrite decode_while_done; [eauto|].
    right. destruct (unused_data o); [done|simpl in Hlen; lia].
  - destruct (eof o) eqn:He; [|rewrite decode_while_done; eauto].
    destruct (decide (unused_data o = [])) as [Hu|Hu];
      [rewrite decode_while_done; eauto|].
    rewrite decode_while_step by done.
    destruct (decompress decompressobj (unused_data o))
      as [[o1 part]|e] eqn:Hd; [|eauto].
    apply IH. intros He1.
    pose proof (decompress_unused _ _ _ _ Hd He1). specialize (Hlen eq_refl).
    lia.
Qed.

Lemma decode_total self data : ∃ r, decode self data = Some r.
Proof.
  destruct (decide (data = [])) as [->|Hne]; [simpl; eauto|].
  rewrite decode_nonempty by done.
  destruct (decompress (decompressor self) data) as [[o part]|e] eqn:Hd;
    [|eauto].
  destruct (decode_while_total (length data) o [part]) as [r ->].
  - intros He. pose proof (decompress_unused _ _ _ _ Hd He). lia.
  - destruct r as [[??]|?]; eauto.
Qed.

(** *** Whole frames inside one chunk *)

(** The loop over carry-over that holds the frames [fs] and then the bytes
    [qt] of a frame that stays open. *)
Lemma decode_while_frames fs ps qt ot outt :
  Forall2 frame_of fs ps → fed qt ot outt →
  ∀ fuel o parts,
    eof o = true → unused_data o = concat fs ++ qt →
    length (concat fs ++ qt) ≤ fuel →
    ∃ o' parts',
      decode_while fuel o parts = Some (Ok (o', parts'))
      ∧ concat parts' = concat parts ++ concat ps ++ outt
      ∧ (qt = [] → at_boundary o') ∧ (qt ≠ [] → o' = ot).
Proof.
  intros Hfs [Hqt Het]. induction Hfs as [|f p fs ps Hf Hfs IH];
    intros fuel o parts He Hu Hlen; simpl in *.
  - destruct (decide (qt = [])) as [->|Hne].
    + rewrite decompress_nil in Hqt by apply new_not_eof. simplify_eq.
      exists o, parts. rewrite decode_while_done by auto.
      by rewrite app_nil_r.
    + destruct fuel as [|fuel]; [destruct qt; [done|simpl in Hlen; lia]|].
      rewrite decode_while_step, Hu, Hqt by (by rewrite ?Hu).
      exists ot, (parts ++ [outt]). rewrite decode_while_done by auto.
      rewrite concat_app. simpl. by rewrite app_nil_r.
  - pose proof (frame_nonempty _ _ Hf) as Hfne.
    destruct (frame_with_rest _ _ (concat fs ++ qt) Hf)
      as (o1 & Hd1 & He1 & Hu1).
    rewrite <-app_assoc in Hu, Hlen.
    destruct fuel as [|fuel];
      [destruct f; [done|simpl in Hlen; lia]|].
    rewrite decode_while_step, Hu, Hd1;
      [|done|rewrite Hu; by destruct f].
    destruct (IH fuel o1 (parts ++ [p]) He1 Hu1)
      as (o' & parts' & -> & Hc & ? & ?).
    { rewrite !length_app in *. destruct f; [done|simpl in Hlen; lia]. }
    exists o', parts'. split_and!; [done| |done..].
    rewrite Hc, concat_app. simpl. by rewrite app_nil_r, <-!app_assoc.
Qed.

(** A chunk made of the rest [r] of the open frame, the frames [fs] and
    the bytes [qt] of a frame that stays open. *)
Lemma decode_finish q r p o out fs ps qt ot outt :
  fed q o out → frame_of (q ++ r) p →
  Forall2 frame_of fs ps → fed qt ot outt →
  ∃ o' out',
    decode {| decompressor := o |} (r ++ concat fs ++ qt)
      = Some (Ok ({| decompressor := o' |}, out' ++ concat ps ++ outt))
    ∧ out ++ out' = p
    ∧ (qt = [] → at_boundary o') ∧ (qt ≠ [] → o' = ot).
Proof.
  intros Hq Hf Hfs Hqt.
  pose proof (fed_rest_nonempty _ _ _ _ _ Hq Hf) as Hr.
  destruct (fed_finish _ _ (concat fs ++ qt) _ _ _ Hq Hf)
    as (o1 & out1 & Hd1 & Hp & He1 & Hu1).
  destruct (decode_while_frames _ _ _ _ _ Hfs Hqt
              (length (r ++ concat fs ++ qt)) o1 [out1] He1 Hu1)
    as (o' & parts' & Hw & Hc & ? & ?).
  { rewrite !length_app. lia. }
  exists o', out1. split_and!; [|done..].
  rewrite decode_nonempty by (by destruct r). simpl. rewrite Hd1, Hw, Hc.
  simpl. by rewrite app_nil_r.
Qed.

(** A chunk that stays inside the open frame. *)
Lemma decode_partial q c r p o out :
  fed q o out → frame_of (q ++ c ++ r) p → r ≠ [] →
  ∃ o' out',
    decode {| decompressor := o |} c
      = Some (Ok ({| decompressor := o' |}, out'))
    ∧ fed (q ++ c) o' (out ++ out').
Proof.
  intros Hq Hf Hr. destruct (decide (c = [])) as [->|Hc].
  - exists o, []. by rewrite !app_nil_r.
  - destruct (fed_extend _ _ _ _ _ _ Hq Hf Hr) as (o' & out' & Hd & Hfed).
    exists o', out'. split; [|done].
    apply decode_single; [done..|]. left. apply Hfed.
Qed.

(** *** A frame delivered in any chunks *)

Lemma chunks_prefix cs : ∀ q r p o out,
  fed q o out → frame_of (q ++ concat cs ++ r) p → r ≠ [] →
  ∃ o' out',
    decode_all {| decompressor := o |} cs
      = Some (Ok ({| decompressor := o' |}, out'))
    ∧ fed (q ++ concat cs) o' (out ++ out').
Proof.
  induction cs as [|c cs IH]; intros q r p o out Hq Hf Hr; simpl in *.
  - exists o, []. by rewrite !app_nil_r.
  - rewrite <-app_assoc in Hf.
    destruct (decode_partial q c (concat cs ++ r) p o out)
      as (o1 & out1 & -> & Hq1); [done..|by destruct (concat cs), r|].
    destruct (IH (q ++ c) r p o1 (out ++ out1))
      as (o2 & out2 & -> & Hq2); [done|by rewrite <-app_assoc|done|].
    exists o2, (out1 ++ out2). by rewrite !app_assoc.
Qed.

Lemma chunks_one_frame cs : ∀ q p o out,
  fed q o out → frame_of (q ++ concat cs) p →
  ∃ o' out',
    decode_all {| decompressor := o |} cs
      = Some (Ok ({| decompressor := o' |}, out'))
    ∧ out ++ out' = p ∧ at_boundary o'.
Proof.
  induction cs as [|c cs IH]; intros q p o out Hq Hf; simpl in *.
  - by destruct (fed_rest_nonempty _ _ _ _ _ Hq Hf).
  - destruct (decide (concat cs = [])) as [Hnil|Hne].
    + rewrite Hnil, app_nil_r in Hf.
      destruct (decode_finish q c p o out [] [] [] _ _ Hq Hf
                  (List.Forall2_nil _) fed_nil) as (o1 & out1 & Hd & Hp & Hb & _).
      simpl in Hd. rewrite !app_nil_r in Hd. rewrite Hd.
      rewrite decode_all_empties by done.
      exists o1, (out1 ++ []). rewrite app_nil_r. auto.
    + destruct (decode_partial q c (concat cs) p o out)
        as (o1 & out1 & -> & Hq1); [done..|].
      destruct (IH (q ++ c) p o1 (out ++ out1))
        as (o2 & out2 & -> & Hp & Hb); [done|by rewrite <-app_assoc|].
      exists o2, (out1 ++ out2). by rewrite app_assoc.
Qed.

(** Once the object has ended its frame at the end of a chunk, the next
    non-empty chunk is fed to the finished object. *)
Lemma chunks_after_boundary cs o :
  eof o = true → unused_data o = [] → concat cs ≠ [] →
  decode_all {| decompressor := o |} cs = Some (Raise ZstdError).
Proof.
  intros He Hu. induction cs as [|c cs IH]; [done|]. simpl. intros Hne.
  destruct c as [|b c]; [simpl; by rewrite IH|].
  rewrite decode_nonempty by done. simpl.
  by rewrite decompress_finished.
Qed.

Lemma flush_at_boundary o :
  at_boundary o → flush {| decompressor := o |} = Ok [].
Proof.
  intros [He _]. unfold flush. simpl. by rewrite He, obj_flush_empty.
Qed.

Lemma flush_open o :
  eof o = false → flush {| decompressor := o |} = Raise DecodingError.
Proof. intros He. unfold flush. simpl. by rewrite He. Qed.

(** *** Two frames in two chunks *)

Lemma body_two_chunks a b f1 p1 f2 p2 :
  frame_of f1 p1 → frame_of f2 p2 → a ++ b = f1 ++ f2 →
  body_output [a; b] =
    Some (if decide (length a = length f1) then Raise ZstdError
          else Ok (p1 ++ p2)).
Proof.
  intros Hf1 Hf2 Hab. unfold body_output, __init__.
  pose proof (frame_nonempty _ _ Hf1) as Hn1.
  pose proof (frame_nonempty _ _ Hf2) as Hn2.
  apply app_eq_app in Hab as [l [[-> ->]|[-> ->]]].
  - (* the first chunk holds all of the first frame *)
    destruct (decide (l = [])) as [->|Hl].
    + rewrite app_nil_r, decide_True by done. simpl in *.
      destruct (decode_finish [] f1 p1 _ [] [] [] [] _ _ fed_nil Hf1
                  (List.Forall2_nil _) fed_nil) as (o1 & out1 & Hd & _ & Hb & _).
      simpl in Hd. rewrite !app_nil_r in Hd. simpl. rewrite Hd.
      destruct (Hb eq_refl) as [He Hu].
      rewrite decode_nonempty by done. simpl.
      by rewrite decompress_finished.
    + rewrite decide_False
        by (rewrite length_app; destruct l; [done|simpl; lia]).
      destruct (decide (b = [])) as [->|Hb].
      * rewrite app_nil_r in *.
        destruct (decode_finish [] f1 p1 _ [] [l] [p2] [] decompressobj []
                    fed_nil Hf1)
          as (o1 & out1 & Hd & Hp & Hbd & _);
          [by repeat constructor|apply fed_nil|].
        simpl in Hd, Hp. rewrite !app_nil_r in Hd. simpl. rewrite Hd.
        simpl. rewrite flush_at_boundary by auto.
        by rewrite Hp, !app_nil_r.
      * destruct (frame_prefix _ _ _ Hf2 Hb) as (ot & outt & Ht).
        destruct (decode_finish [] f1 p1 _ [] [] [] l _ _ fed_nil Hf1
                    (List.Forall2_nil _) Ht) as (o1 & out1 & Hd & Hp & _ & Ho).
        simpl in Hd, Hp. simpl. rewrite Hd. rewrite (Ho Hl).
        destruct (decode_finish l b p2 _ _ [] [] [] _ _ Ht Hf2
                    (List.Forall2_nil _) fed_nil)
          as (o2 & out2 & Hd2 & Hp2 & Hbd & _).
        simpl in Hd2. rewrite !app_nil_r in Hd2. rewrite Hd2.
        simpl. rewrite flush_at_boundary by auto.
        by rewrite Hp, <-Hp2, !app_nil_r, <-!app_assoc.
  - (* the first chunk ends inside the first frame *)
    destruct (decide (l = [])) as [->|Hl].
    + rewrite app_nil_r in *. rewrite decide_True by done. simpl in *.
      destruct (decode_finish [] a p1 _ [] [] [] [] _ _ fed_nil Hf1
                  (List.Forall2_nil _) fed_nil) as (o1 & out1 & Hd & _ & Hb & _).
      simpl in Hd. rewrite !app_nil_r in Hd. simpl. rewrite Hd.
      destruct (Hb eq_refl) as [He Hu].
      rewrite decode_nonempty by done. simpl.
      by rewrite decompress_finished.
    + rewrite decide_False
        by (rewrite length_app; destruct l; [done|simpl; lia]).
      destruct (decode_partial [] a l p1 _ [] fed_nil Hf1 Hl)
        as (o1 & out1 & Hd & Hq1).
      simpl in Hd, Hq1. simpl. rewrite Hd.
      destruct (decode_finish a l p1 _ _ [f2] [p2] [] decompressobj []
                  Hq1 Hf1)
        as (o2 & out2 & Hd2 & Hp & Hbd & _);
        [by repeat constructor|apply fed_nil|].
      simpl in Hd2. rewrite !app_nil_r in Hd2. rewrite Hd2.
      simpl. rewrite flush_at_boundary by auto.
      by rewrite <-Hp, !app_nil_r, <-!app_assoc.
Qed.

(** Any number of frames in one chunk. *)
Lemma body_frames_one_chunk fs ps :
  fs ≠ [] → Forall2 frame_of fs ps →
  body_output [concat fs] = Some (Ok (concat ps)).
Proof.
  intros Hne Hfs. destruct Hfs as [|f0 p0 fs ps Hf0 Hfs]; [done|].
  unfold body_output, __init__. simpl.
  destruct (decode_finish [] f0 p0 _ [] fs ps [] decompressobj []
              fed_nil Hf0 Hfs fed_nil) as (o & out & Hd & Hp & Hb & _).
  simpl in Hd, Hp. rewrite !app_nil_r in Hd. rewrite Hd.
  rewrite flush_at_boundary by auto. by rewrite Hp, !app_nil_r.
Qed.

Lemma decode_while_raise fuel o parts e :
  decode_while fuel o parts = Some (Raise e) →
  ∃ unused, decompress decompressobj unused = Raise e.
Proof.
  revert o parts. induction fuel as [|fuel IH]; intros o parts; simpl.
  - by destruct (eof o), (unused_data o).
  - destruct (eof o), (unused_data o) as [|b u]; try done.
    destruct (decompress decompressobj (b :: u)) as [[o1 part]|e1] eqn:Hd;
      [apply IH|]. intros ?; simplify_eq. eauto.
Qed.

Lemma concat_singletons (l : bytes) : concat (map (λ b, [b]) l) = l.
Proof. induction l as [|b l IH]; [done|]. simpl. by rewrite IH. Qed.
End protocol.
End ZstdDecoderFacts.

(** ** The claims about ZstdDecoder *)

Module ZstdDecoderSpec.
Import ZstdDecoder ZstdDecoderFacts.
Section spec.
Context `{Obj : DecompressionObj} {Laws : DecompressionObjLaws}.

(** C4.  Round trip: for a payload [p] held by one valid frame [f], a new
    decoder given [decode(f)] and then [flush()] produces exactly [p]. *)
Theorem round_trip f p :
  frame_of f p → body_output [f] = Some (Ok p).
Proof.
  intros Hf. unfold body_output.
  destruct (chunks_one_frame [f] [] p decompressobj [] fed_nil)
    as (o & out & Hd & Hp & Hb); [simpl; by rewrite app_nil_r|].
  unfold __init__. rewrite Hd, flush_at_boundary by done.
  simpl in Hp. by rewrite Hp, app_nil_r.
Qed.

(** C2.  [flush()] raises [DecodingError] exactly when the current object
    is not at end of stream, and otherwise returns what the object's own
    flush returns; a new decoder flushed at once raises, and so does one
    that was fed, in any chunks, a strict prefix of a valid frame. *)
Theorem flush_incomplete_iff :
  (∀ self, flush self = Raise DecodingError
           ↔ eof (decompressor self) = false)
  ∧ (∀ self, eof (decompressor self) = true →
             flush self = Ok (obj_flush (decompressor self)))
  ∧ flush __init__ = Raise DecodingError
  ∧ (∀ f p cs r, frame_of f p → concat cs ++ r = f → r ≠ [] →
                 body_output cs = Some (Raise DecodingError)).
Proof.
  split_and!.
  - intros self. unfold flush. by destruct (eof (decompressor self)).
  - intros self He. unfold flush. by rewrite He.
  - apply flush_open, new_not_eof.
  - intros f p cs r Hf <- Hr. unfold body_output, __init__.
    destruct (chunks_prefix cs [] r p decompressobj [] fed_nil Hf Hr)
      as (o & out & -> & _ & He).
    by rewrite flush_open.
Qed.

(** C1.  Two frames [f1], [f2] for the payloads [p1], [p2], delivered as
    the two chunks that the cut at byte [k] makes of [f1 ++ f2]: every cut
    yields [p1 ++ p2] except the cut exactly at the frame boundary, where
    the second [decode()] feeds the finished object and raises.  Any
    number of frames delivered as one chunk yield their payloads. *)
Theorem two_frames_split_anywhere f1 p1 f2 p2 :
  frame_of f1 p1 → frame_of f2 p2 →
  (∀ k, body_output [take k (f1 ++ f2); drop k (f1 ++ f2)] =
          Some (if decide (k = length f1) then Raise ZstdError
                else Ok (p1 ++ p2)))
  ∧ (∀ fs ps, fs ≠ [] → Forall2 frame_of fs ps →
              body_output [concat fs] = Some (Ok (concat ps))).
Proof.
  intros Hf1 Hf2. split; [|apply body_frames_one_chunk].
  intros k.
  rewrite (body_two_chunks _ _ f1 p1 f2 p2 Hf1 Hf2 (take_drop k _)).
  pose proof (frame_nonempty _ _ Hf2) as Hn2.
  rewrite length_take, length_app.
  destruct (decide (k = length f1)) as [->|Hk].
  - rewrite decide_True; [done|lia].
  - rewrite decide_False; [done|].
    destruct f2; [done|simpl; lia].
Qed.

(** C3.  The outcome depends on the chunking.  One frame gives its
    payload under every chunking; but for two frames, the whole stream in
    one chunk gives [p1 ++ p2], while every chunking that has a chunk end
    at the frame boundary raises, one byte at a time among them. *)
Theorem chunking_changes_outcome f1 p1 f2 p2 :
  frame_of f1 p1 → frame_of f2 p2 →
  (∀ cs, concat cs = f1 → body_output cs = Some (Ok p1))
  ∧ body_output [f1 ++ f2] = Some (Ok (p1 ++ p2))
  ∧ (∀ cs1 cs2, concat cs1 = f1 → concat cs2 = f2 →
                body_output (cs1 ++ cs2) = Some (Raise ZstdError))
  ∧ body_output (map (λ b, [b]) (f1 ++ f2)) = Some (Raise ZstdError).
Proof.
  intros Hf1 Hf2.
  assert (∀ cs1 cs2, concat cs1 = f1 → concat cs2 = f2 →
            body_output (cs1 ++ cs2) = Some (Raise ZstdError)) as Hsplit.
  { intros cs1 cs2 H1 H2. unfold body_output, __init__.
    destruct (chunks_one_frame cs1 [] p1 decompressobj [] fed_nil)
      as (o & out & Hd & _ & He & Hu); [by rewrite H1|].
    rewrite decode_all_app, Hd, chunks_after_boundary; [done..|].
    rewrite H2. by eapply frame_nonempty. }
  split_and!; [| |done|].
  - intros cs Hcs. unfold body_output, __init__.
    destruct (chunks_one_frame cs [] p1 decompressobj [] fed_nil)
      as (o & out & -> & Hp & Hb); [by rewrite Hcs|].
    rewrite flush_at_boundary by done. simpl in Hp.
    by rewrite Hp, app_nil_r.
  - unfold body_output, __init__. simpl.
    destruct (decode_finish [] f1 p1 _ [] [f2] [p2] [] decompressobj []
                fed_nil Hf1) as (o & out & Hd & Hp & Hb & _);
      [by repeat constructor|apply fed_nil|].
    simpl in Hd, Hp. rewrite !app_nil_r in Hd. rewrite Hd.
    rewrite flush_at_boundary by auto. by rewrite Hp, !app_nil_r.
  - rewrite map_app. apply Hsplit; apply concat_singletons.
Qed.

(** C5, as the code has it.  [decode()] has no error of its own: empty
    input returns at once, every call returns or raises, and a raise is
    the raise of a [decompress] call on the current or on a new object,
    passed on unchanged.  Zero or more complete frames followed by a
    strict prefix of a valid frame raise nothing on a new decoder: the
    incomplete bytes stay in the open object and [flush()] reports
    them. *)
Theorem decode_raises_only_from_object :
  (∀ self, decode self [] = Some (Ok (self, [])))
  ∧ (∀ self data, ∃ r, decode self data = Some r)
  ∧ (∀ self data e,
       decode self data = Some (Raise e) →
       decompress (decompressor self) data = Raise e
       ∨ ∃ unused, decompress decompressobj unused = Raise e)
  ∧ (∀ self data e,
       data ≠ [] → decompress (decompressor self) data = Raise e →
       decode self data = Some (Raise e))
  ∧ (∀ fs ps q r p,
       Forall2 frame_of fs ps → frame_of (q ++ r) p → r ≠ [] →
       ∃ self out,
         decode __init__ (concat fs ++ q) = Some (Ok (self, concat ps ++ out))
         ∧ (q ≠ [] → eof (decompressor self) = false
                     ∧ flush self = Raise DecodingError)).
Proof.
  split_and!.
  - done.
  - apply decode_total.
  - intros self data e. destruct (decide (data = [])) as [->|Hne]; [done|].
    rewrite decode_nonempty by done.
    destruct (decompress (decompressor self) data) as [[o part]|e1];
      [|intros ?; simplify_eq; by left].
    destruct (decode_while (length data) o [part]) as [[[??]|e1]|] eqn:Hw;
      [done| |done].
    intros ?; simplify_eq. right. by eapply decode_while_raise.
  - intros self data e Hne Hd. by rewrite decode_nonempty, Hd.
  - intros fs ps q r p Hfs Hf Hr. unfold __init__.
    destruct (frame_prefix _ _ _ Hf Hr) as (ot & outt & Ht).
    destruct Hfs as [|f0 p0 fs ps Hf0 Hfs]; simpl.
    + destruct (decode_partial [] q r p decompressobj [] fed_nil Hf Hr)
        as (o' & out' & Hd & _ & He).
      exists {| decompressor := o' |}, out'. split; [done|].
      intros _. split; [done|]. by apply flush_open.
    + destruct (decode_finish [] f0 p0 _ [] fs ps q _ _ fed_nil Hf0 Hfs Ht)
        as (o' & out' & Hd & Hp & _ & Ho).
      simpl in Hp. subst out'.
      exists {| decompressor := o' |}, outt.
      rewrite <-!app_assoc. split; [done|].
      intros Hq. rewrite (Ho Hq). simpl. split; [apply Ht|].
      apply flush_open, Ht.
Qed.

(** C7.  A decoder holds one decompression object.  When the object ends
    its frame inside a chunk with unused bytes left, [decode()] goes on
    with a new object fed exactly those bytes; so a [decode()] that
    returns never leaves its object at end of stream with unused bytes
    pending, and no decoder reached from a new one is in that state. *)
Theorem one_context_no_carryover :
  (∀ self : t, self = {| decompressor := decompressor self |})
  ∧ (∀ self data o part,
       data ≠ [] → decompress (decompressor self) data = Ok (o, part) →
       eof o = true → unused_data o ≠ [] →
       decode self data =
         match decompress decompressobj (unused_data o) with
         | Raise e => Some (Raise e)
         | Ok (o', part') =>
             match decode_while (length data - 1) o' [part; part'] with
             | None => None
             | Some (Raise e) => Some (Raise e)
             | Some (Ok (o'', data_parts)) =>
                 Some (Ok ({| decompressor := o'' |}, concat data_parts))
             end
         end)
  ∧ (∀ self data self' out,
       data ≠ [] → decode self data = Some (Ok (self', out)) →
       ¬ carryover_pending self')
  ∧ (∀ self, reachable self → ¬ carryover_pending self).
Proof.
  assert (∀ self data self' out,
            data ≠ [] → decode self data = Some (Ok (self', out)) →
            ¬ carryover_pending self') as Hret.
  { intros self data self' out Hne. rewrite decode_nonempty by done.
    destruct (decompress (decompressor self) data) as [[o part]|e]; [|done].
    destruct (decode_while (length data) o [part]) as [[[o' ps]|e]|] eqn:Hw;
      [|done..].
    intros ?; simplify_eq. by eapply decode_while_exit. }
  split_and!; [by intros []| |done|].
  - intros self data o part Hne Hd He Hu.
    rewrite decode_nonempty, Hd by done.
    destruct data as [|b data]; [done|]. simpl length.
    rewrite decode_while_step by done. simpl.
    rewrite Nat.sub_0_r.
    by destruct (decompress decompressobj (unused_data o)) as [[??]|?].
  - intros self Hreach.
    induction Hreach as [|self data self' out _ IH Hd].
    + intros [He _]. simpl in He. by rewrite new_not_eof in He.
    + destruct (decide (data = [])) as [->|Hne];
        [simpl in Hd; by simplify_eq | by eapply Hret].
Qed.

(** C6.  [decode(b"")] returns [b""] and leaves the decoder as it was, so
    an empty call put anywhere among the calls changes neither the decoder
    that the later calls find nor the output, nor what [flush()] does. *)
Theorem decode_empty_noop :
  (∀ self, decode self [] = Some (Ok (self, [])))
  ∧ (∀ self c,
       match decode self [] with
       | Some (Ok (self', out)) =>
           match decode self' c with
           | Some (Ok (self'', out')) => Some (Ok (self'', out ++ out'))
           | r => r
           end
       | r => r
       end = decode self c)
  ∧ (∀ self c self' out,
       decode self c = Some (Ok (self', out)) →
       decode self' [] = Some (Ok (self', [])))
  ∧ (∀ self xs ys,
       decode_all self (xs ++ [] :: ys) = decode_all self (xs ++ ys))
  ∧ (∀ xs ys, body_output (xs ++ [] :: ys) = body_output (xs ++ ys)).
Proof.
  assert (∀ self xs ys,
            decode_all self (xs ++ [] :: ys) = decode_all self (xs ++ ys))
    as Hall.
  { intros self xs ys. rewrite !decode_all_app. simpl.
    destruct (decode_all self xs) as [[[self1 out1]|?]|]; [|done..].
    by destruct (decode_all self1 ys) as [[[??]|?]|]. }
  split_and!; [done| |done|done|].
  - intros self c. simpl. by destruct (decode self c) as [[[??]|?]|].
  - intros xs ys. unfold body_output. by rewrite Hall.
Qed.
End spec.
End ZstdDecoderSpec.

(** ** The claims about request and Session.request *)

Module RequestSpec.
Section spec.
Context `{Ver : HttpxVersion}.

(** [_proxy_kwargs] builds a dictionary with the one key [proxies] or
    [proxy]. *)
Lemma _proxy_kwargs_keys proxy_or_map k :
  k ≠ "proxies" → k ≠ "proxy" → _proxy_kwargs proxy_or_map !! k = None.
Proof.
  intros H1 H2. unfold _proxy_kwargs.
  destruct _HAS_PROXIES_PARAM; by rewrite lookup_singleton_ne.
Qed.

Lemma with_default_timeout_absent (kwargs : gmap string value) :
  kwargs !! "timeout" = None →
  with_default_timeout kwargs = <[ "timeout" := VInt 45 ]> kwargs.
Proof. intros H. unfold with_default_timeout. by rewrite H. Qed.

Lemma with_default_timeout_present (kwargs : gmap string value) v :
  kwargs !! "timeout" = Some v → with_default_timeout kwargs = kwargs.
Proof. intros H. unfold with_default_timeout. by rewrite H. Qed.

Lemma with_default_timeout_other (kwargs : gmap string value) k :
  k ≠ "timeout" → with_default_timeout kwargs !! k = kwargs !! k.
Proof.
  intros H. unfold with_default_timeout.
  destruct (kwargs !! "timeout"); [done|]. by rewrite lookup_insert_ne.
Qed.

(** What [Session.request] returns when the session has a client. *)
Lemma session_request_ok self client args hdrs proxies kwargs :
  Session._client self = Some client →
  Session.request self args hdrs proxies kwargs =
    Ok ({| Session.headers := Session.headers self;
           Session.verify := Session.verify self;
           Session._client := Some (Session.enter client);
           Session._proxies := Session._proxies self |},
        {| call_args := args;
           call_headers :=
             Some (filter (λ kv, is_none kv.2 = false)
                          (default ∅ hdrs ∪ Session.headers self));
           call_kwargs :=
             if is_none proxies
             then filter (λ kv, truthy kv.2 = true)
                         (with_default_timeout kwargs)
             else _proxy_kwargs proxies
                    ∪ filter (λ kv, truthy kv.2 = true)
                             (with_default_timeout kwargs) |}).
Proof. intros H. unfold Session.request. by rewrite H. Qed.

(** C8.  When the caller passes no [timeout], both the module-level
    [request] and [Session.request] issue the request with
    [timeout=45]. *)
Theorem default_timeout_applied :
  (∀ method url proxy proxies (kwargs : gmap string value),
     kwargs !! "timeout" = None →
     call_kwargs (request method url proxy proxies kwargs).2 !! "timeout"
       = Some (VInt 45))
  ∧ (∀ self client args hdrs proxies (kwargs : gmap string value),
       Session._client self = Some client →
       kwargs !! "timeout" = None →
       ∃ self' c,
         Session.request self args hdrs proxies kwargs = Ok (self', c)
         ∧ call_kwargs c !! "timeout" = Some (VInt 45)).
Proof.
  split.
  - intros method url proxy proxies kwargs H. simpl.
    by rewrite with_default_timeout_absent, lookup_insert_eq.
  - intros self client args hdrs proxies kwargs Hc H.
    eexists _, _. split; [by apply session_request_ok|]. simpl.
    assert (filter (λ kv : string * value, truthy kv.2 = true)
                   (with_default_timeout kwargs) !! "timeout"
            = Some (VInt 45)) as Hf.
    { apply map_lookup_filter_Some. split; [|done].
      by rewrite with_default_timeout_absent, lookup_insert_eq. }
    destruct (is_none proxies); [done|].
    by rewrite lookup_union_r by (by apply _proxy_kwargs_keys).
Qed.

(** C9.  [Session.request] sends the session headers merged with the
    headers of the request, those of the request winning, without the
    entries whose value is [None]. *)
Theorem session_headers_merged self client args hdrs proxies kwargs :
  Session._client self = Some client →
  ∃ self' c sent,
    Session.request self args hdrs proxies kwargs = Ok (self', c)
    ∧ call_headers c = Some sent
    ∧ ∀ k v,
        sent !! k = Some v ↔
        v ≠ VNone
        ∧ (default ∅ hdrs !! k = Some v
           ∨ (default ∅ hdrs !! k = None
              ∧ Session.headers self !! k = Some v)).
Proof.
  intros Hc. eexists _, _, _.
  split; [by apply session_request_ok|]. split; [done|].
  intros k v. rewrite map_lookup_filter_Some, lookup_union_Some_raw.
  simpl. split.
  - intros [H1 H2]. split; [by destruct v | done].
  - intros [H1 H2]. split; [done | by destruct v].
Qed.

(** C10, as the code has it.  [Session.request] drops every entry of
    [kwargs] whose value is falsy: under such a key the request carries
    only what a [proxies] argument puts there, and a falsy [timeout] is
    neither kept nor replaced by the default.  Entries with a truthy
    value are kept unless [proxies] overwrites them, and a [proxies]
    argument other than [None], falsy or not, is translated by
    [_proxy_kwargs] and passed on. *)
Theorem falsy_kwargs_dropped self client args hdrs proxies kwargs :
  Session._client self = Some client →
  ∃ self' c,
    Session.request self args hdrs proxies kwargs = Ok (self', c)
    ∧ (∀ k v, kwargs !! k = Some v → truthy v = false →
              call_kwargs c !! k =
                if is_none proxies then None
                else _proxy_kwargs proxies !! k)
    ∧ (∀ v, kwargs !! "timeout" = Some v → truthy v = false →
            call_kwargs c !! "timeout" = None)
    ∧ (∀ k v, kwargs !! k = Some v → truthy v = true →
              (if is_none proxies then True
               else _proxy_kwargs proxies !! k = None) →
              call_kwargs c !! k = Some v)
    ∧ (is_none proxies = false →
       ∀ k v, _proxy_kwargs proxies !! k = Some v →
              call_kwargs c !! k = Some v).
Proof.
  intros Hc. eexists _, _. split; [by apply session_request_ok|]. simpl.
  assert (∀ k v, kwargs !! k = Some v →
            with_default_timeout kwargs !! k = Some v) as Hkeep.
  { intros k v Hk. destruct (decide (k = "timeout")) as [->|Hne];
      [by rewrite (with_default_timeout_present _ v)
      |by rewrite with_default_timeout_other]. }
  assert (∀ k v, kwargs !! k = Some v → truthy v = false →
            filter (λ kv : string * value, truthy kv.2 = true)
                   (with_default_timeout kwargs) !! k = None) as Hdrop.
  { intros k v Hk Hv. apply map_lookup_filter_None. right.
    intros x Hx. rewrite (Hkeep _ _ Hk) in Hx. simplify_eq. simpl.
    congruence. }
  split_and!.
  - intros k v Hk Hv. destruct (is_none proxies); [by eapply Hdrop|].
    rewrite lookup_union, (Hdrop _ _ Hk Hv).
    by destruct (_proxy_kwargs proxies !! k).
  - intros v Hk Hv. destruct (is_none proxies); [by eapply Hdrop|].
    rewrite lookup_union_r by (by apply _proxy_kwargs_keys).
    by eapply Hdrop.
  - intros k v Hk Hv Hp.
    assert (filter (λ kv : string * value, truthy kv.2 = true)
                   (with_default_timeout kwargs) !! k = Some v) as Hf
      by (apply map_lookup_filter_Some; auto).
    destruct (is_none proxies); [done|]. by rewrite lookup_union_r.
  - intros -> k v Hk. by apply lookup_union_Some_l.
Qed.
End spec.
End RequestSpec.

(** ** The theorems at concrete inputs

    The decoder theorems are instantiated with the reference object and
    frames of [b"alpha"], [b"beta"] and [b"gamma"]; the request theorems with
    a session whose client was made by setting [proxies]. *)

Module Scenarios.
Import RefCodec RefCodecFacts ZstdDecoder.

(** [decode(f); flush()] on the frame of [b"alpha"]. *)
Lemma round_trip_witness :
  frame_of (compress (payload "alpha")) (payload "alpha")
  ∧ body_output [compress (payload "alpha")] = Some (Ok (payload "alpha")).
Proof.
  split; [apply compress_frame_of|].
  apply (ZstdDecoderSpec.round_trip (Laws := ref_obj_laws)).
  apply compress_frame_of.
Defined.

(** The first five bytes of the frame of [b"alpha"], then [flush()]. *)
Lemma flush_incomplete_iff_witness :
  body_output [take 5 (compress (payload "alpha"))]
    = Some (Raise DecodingError).
Proof.
  destruct (ZstdDecoderSpec.flush_incomplete_iff (Laws := ref_obj_laws))
    as (_ & _ & _ & H).
  apply (H (compress (payload "alpha")) (payload "alpha")
           [take 5 (compress (payload "alpha"))]
           (drop 5 (compress (payload "alpha"))));
    [apply compress_frame_of | reflexivity | discriminate].
Defined.

(** The frames of [b"alpha"] and [b"beta"], cut at the frame boundary
    (byte 12) and cut inside the first frame (byte 7). *)
Lemma two_frames_split_anywhere_witness :
  body_output
    [take 12 (compress (payload "alpha") ++ compress (payload "beta"));
     drop 12 (compress (payload "alpha") ++ compress (payload "beta"))]
    = Some (Raise ZstdError)
  ∧ body_output
      [take 7 (compress (payload "alpha") ++ compress (payload "beta"));
       drop 7 (compress (payload "alpha") ++ compress (payload "beta"))]
      = Some (Ok (payload "alpha" ++ payload "beta")).
Proof.
  destruct (ZstdDecoderSpec.two_frames_split_anywhere (Laws := ref_obj_laws)
              _ _ _ _ (compress_frame_of (payload "alpha"))
              (compress_frame_of (payload "beta"))) as [H _].
  split; [exact (H 12) | exact (H 7)].
Defined.

(** The same two frames in one chunk and one byte at a time. *)
Lemma chunking_changes_outcome_witness :
  body_output [compress (payload "alpha") ++ compress (payload "beta")]
    = Some (Ok (payload "alpha" ++ payload "beta"))
  ∧ body_output
      (map (λ b, [b])
           (compress (payload "alpha") ++ compress (payload "beta")))
      = Some (Raise ZstdError).
Proof.
  destruct (ZstdDecoderSpec.chunking_changes_outcome (Laws := ref_obj_laws)
              _ _ _ _ (compress_frame_of (payload "alpha"))
              (compress_frame_of (payload "beta"))) as (_ & H1 & _ & H2).
  by split.
Defined.

(** Three frames in one stream, cut into chunks of equal size.  The
    reference frames of [b"alpha"], [b"beta"] and [b"gamma"] are 12, 10 and
    12 bytes long: chunks of 7 bytes never end on a frame boundary and the
    payloads come out, chunks of 12 bytes end on the first boundary and the
    next [decode()] raises. *)
Example three_frames_in_chunks :
  let body := compress (payload "alpha") ++ compress (payload "beta")
              ++ compress (payload "gamma") in
  map length (chunks_of 34 7 body) = [7; 7; 7; 7; 6]
  ∧ body_output (chunks_of 34 7 body) = Some (Ok (payload "alphabetagamma"))
  ∧ body_output (chunks_of 34 12 body) = Some (Raise ZstdError).
Proof. repeat split; reflexivity. Qed.

(** C5, as stated, fails: a byte that cannot start a frame, alone or after
    a complete frame, makes [decode()] raise the object's error. *)
Lemma decode_raises_on_malformed :
  decode __init__ [x2a] = Some (Raise ZstdError)
  ∧ decode __init__ (compress (payload "alpha") ++ [x2a])
    = Some (Raise ZstdError).
Proof. split; reflexivity. Qed.

(** The frame of [b"alpha"] followed by the first three bytes of the frame
    of [b"beta"]. *)
Lemma decode_raises_only_from_object_witness :
  ∃ self out,
    decode __init__
      (concat [compress (payload "alpha")]
       ++ take 3 (compress (payload "beta")))
      = Some (Ok (self, concat [payload "alpha"] ++ out))
    ∧ (take 3 (compress (payload "beta")) ≠ [] →
       eof (decompressor self) = false
       ∧ flush self = Raise DecodingError).
Proof.
  destruct (ZstdDecoderSpec.decode_raises_only_from_object
              (Laws := ref_obj_laws)) as (_ & _ & _ & _ & H).
  apply (H [compress (payload "alpha")] [payload "alpha"]
           (take 3 (compress (payload "beta")))
           (drop 3 (compress (payload "beta")))
           (payload "beta")).
  - repeat constructor. apply compress_frame_of.
  - exact (compress_frame_of (payload "beta")).
  - discriminate.
Defined.

(** The decoder after [decode] of a frame and two more bytes, which open
    the next frame. *)
Lemma one_context_no_carryover_witness :
  reachable {| decompressor := AtLiteral |}
  ∧ ¬ carryover_pending {| decompressor := AtLiteral |}.
Proof.
  assert (reachable {| decompressor := AtLiteral |}) as Hreach.
  { apply (reach_decode __init__
             (compress (payload "alpha") ++ [xfd; x01]) _ (payload "alpha"));
      [apply reach_init | reflexivity]. }
  split; [exact Hreach|].
  destruct (ZstdDecoderSpec.one_context_no_carryover (Laws := ref_obj_laws))
    as (_ & _ & _ & H).
  exact (H _ Hreach).
Defined.

(** An empty call between the two halves of a frame. *)
Lemma decode_empty_noop_witness :
  body_output [take 5 (compress (payload "alpha")); [];
               drop 5 (compress (payload "alpha"))]
  = body_output [take 5 (compress (payload "alpha"));
                 drop 5 (compress (payload "alpha"))].
Proof.
  destruct (ZstdDecoderSpec.decode_empty_noop (Obj := ref_obj))
    as (_ & _ & _ & _ & H).
  apply (H [take 5 (compress (payload "alpha"))]
           [drop 5 (compress (payload "alpha"))]).
Defined.

(** A session on httpx 0.28 or later whose client was made by
    [session.proxies = None]; [get(url)] with no [timeout]. *)
Lemma default_timeout_applied_witness :
  ∃ self' c,
    Session.request (Ver := {| _HAS_PROXIES_PARAM := false |})
      (Session.set_proxies (Ver := {| _HAS_PROXIES_PARAM := false |})
         Session.__init__ VNone)
      [VStr "get"; VStr "https://example.org/"] None VNone ∅
      = Ok (self', c)
    ∧ call_kwargs c !! "timeout" = Some (VInt 45).
Proof.
  destruct (RequestSpec.default_timeout_applied
              (Ver := {| _HAS_PROXIES_PARAM := false |})) as [_ H].
  eapply H; reflexivity.
Defined.

(** The same session sending headers. *)
Lemma session_headers_merged_witness :
  ∃ self' c sent,
    Session.request (Ver := {| _HAS_PROXIES_PARAM := false |})
      (Session.set_proxies (Ver := {| _HAS_PROXIES_PARAM := false |})
         Session.__init__ VNone)
      [VStr "get"; VStr "https://example.org/"]
      (Some {[ "Accept" := VStr "*/*"; "Cookie" := VNone ]}) VNone ∅
      = Ok (self', c)
    ∧ call_headers c = Some sent
    ∧ ∀ k v,
        sent !! k = Some v ↔
        v ≠ VNone
        ∧ (default ∅ (Some ({[ "Accept" := VStr "*/*"; "Cookie" := VNone ]}
                            : gmap string value)) !! k = Some v
           ∨ (default ∅ (Some ({[ "Accept" := VStr "*/*"; "Cookie" := VNone ]}
                               : gmap string value)) !! k = None
              ∧ Session.headers (Session.set_proxies (Ver := {| _HAS_PROXIES_PARAM := false |})
         Session.__init__ VNone)
                  !! k = Some v)).
Proof.
  eapply (RequestSpec.session_headers_merged
            (Ver := {| _HAS_PROXIES_PARAM := false |})).
  reflexivity.
Defined.

(** C10, as stated, fails: [proxies={}] is a keyword argument other than
    [headers] with a falsy value, and on httpx before 0.28 the request
    still carries it. *)
Lemma falsy_proxies_passed_on :
  truthy (VDict []) = false
  ∧ ∃ self' c,
      Session.request (Ver := {| _HAS_PROXIES_PARAM := true |})
        (Session.set_proxies (Ver := {| _HAS_PROXIES_PARAM := true |})
         Session.__init__ VNone)
        [VStr "get"; VStr "https://example.org/"] None (VDict []) ∅
        = Ok (self', c)
      ∧ call_kwargs c !! "proxies" = Some (VDict []).
Proof.
  split; [done|]. eexists _, _. split; [reflexivity|].
  vm_compute. reflexivity.
Qed.

(** The same session called with [timeout=0] and an empty [data]. *)
Lemma falsy_kwargs_dropped_witness :
  ∃ self' c,
    Session.request (Ver := {| _HAS_PROXIES_PARAM := false |})
      (Session.set_proxies (Ver := {| _HAS_PROXIES_PARAM := false |})
         Session.__init__ VNone)
      [VStr "get"; VStr "https://example.org/"] None VNone
      {[ "timeout" := VInt 0; "data" := VDict [] ]}
      = Ok (self', c)
    ∧ call_kwargs c !! "timeout" = None.
Proof.
  destruct (RequestSpec.falsy_kwargs_dropped
              (Ver := {| _HAS_PROXIES_PARAM := false |})
              (Session.set_proxies (Ver := {| _HAS_PROXIES_PARAM := false |})
         Session.__init__ VNone) _
              [VStr "get"; VStr "https://example.org/"] None VNone
              {[ "timeout" := VInt 0; "data" := VDict [] ]} eq_refl)
    as (self' & c & Hreq & _ & Ht & _).
  exists self', c. split; [done|].
  apply (Ht (VInt 0)); [|done].
  by rewrite lookup_insert_eq.
Defined.
End Scenarios.

(** ** Any number of frames in any chunks *)

Module ZstdDecoderChunks.
Import ZstdDecoder ZstdDecoderFacts.

(** Where a prefix [l] of a stream of frames ends: between two frames, or
    inside one. *)
Lemma concat_split_at (fs : list bytes) : ∀ l rest,
  concat fs = l ++ rest →
  ∃ fa fb,
    fs = fa ++ fb
    ∧ ((l = concat fa ∧ rest = concat fb)
       ∨ (∃ qt rt fb', fb = (qt ++ rt) :: fb' ∧ qt ≠ [] ∧ rt ≠ []
                       ∧ l = concat fa ++ qt ∧ rest = rt ++ concat fb')).
Proof.
  induction fs as [|f fs IH]; intros l rest Hcat; simpl in Hcat.
  - symmetry in Hcat. apply app_eq_nil in Hcat as [-> ->].
    exists [], []. split; [done|]. by left.
  - apply app_eq_app in Hcat as [m [[-> ->]|[-> Hcat]]].
    + destruct (decide (l = [])) as [->|Hl].
      { exists [], (m :: fs). split; [done|]. by left. }
      destruct (decide (m = [])) as [->|Hm].
      { exists [l ++ []], fs. split; [done|]. left. simpl.
        by rewrite !app_nil_r. }
      exists [], ((l ++ m) :: fs). split; [done|]. right.
      by exists l, m, fs.
    + destruct (IH m rest Hcat) as (fa & fb & -> & Hcase).
      exists (f :: fa), fb. split; [done|].
      destruct Hcase as [[-> ->]|(qt & rt & fb' & -> & ? & ? & -> & ->)].
      * by left.
      * right. exists qt, rt, fb'. simpl. by rewrite <-app_assoc.
Qed.

Lemma app_self_nil {A} (x y : list A) : x = x ++ y → y = [].
Proof.
  intros H. apply (f_equal length) in H. rewrite length_app in H.
  destruct y; [done|simpl in H; lia].
Qed.

Section chunks.
Context `{Obj : DecompressionObj} {Laws : DecompressionObjLaws}.

Lemma frames_nonempty fs ps :
  Forall2 frame_of fs ps → Forall (λ f, f ≠ []) fs.
Proof.
  induction 1 as [|f p fs ps Hf _ IH]; constructor; [|done].
  by eapply frame_nonempty.
Qed.

Lemma concat_frames_nonempty fs ps :
  Forall2 frame_of fs ps → fs ≠ [] → concat fs ≠ [].
Proof.
  intros Hfs Hne. destruct Hfs as [|f p fs ps Hf _]; [done|].
  simpl. pose proof (frame_nonempty _ _ Hf). by destruct f.
Qed.

(** A cut cannot sit before the first chunk: the open frame has bytes
    left. *)
Lemma aligned_after_cons r fs c cs :
  r ≠ [] →
  aligned_after r fs (c :: cs) ↔
  ∃ fa fb ca cb,
    fs = fa ++ fb ∧ cs = ca ++ cb ∧ fb ≠ []
    ∧ c ++ concat ca = r ++ concat fa.
Proof.
  intros Hr. split.
  - intros (fa & fb & ca & cb & Hfs & Hcs & Hfb & Hcat).
    destruct ca as [|c0 ca]; simpl in *.
    { symmetry in Hcat. by apply app_eq_nil in Hcat as [? _]. }
    simplify_eq. by exists fa, fb, ca, cb.
  - intros (fa & fb & ca & cb & -> & -> & Hfb & Hcat).
    by exists fa, fb, (c :: ca), cb.
Qed.

(** The chunk stays inside the open frame. *)
Lemma aligned_after_inside c l fs cs :
  l ≠ [] →
  aligned_after (c ++ l) fs (c :: cs) ↔ aligned_after l fs cs.
Proof.
  intros Hl. rewrite aligned_after_cons by (by destruct c, l).
  unfold aligned_after.
  split; intros (fa & fb & ca & cb & -> & -> & Hfb & Hcat);
    exists fa, fb, ca, cb; split_and!; try done.
  - rewrite <-app_assoc in Hcat. by apply app_inv_head in Hcat.
  - by rewrite <-app_assoc, Hcat.
Qed.

(** The chunk ends inside a later frame [qt ++ rt]. *)
Lemma aligned_after_into r fa qt rt fb cs :
  r ≠ [] → qt ≠ [] →
  aligned_after r (fa ++ (qt ++ rt) :: fb) ((r ++ concat fa ++ qt) :: cs)
  ↔ aligned_after rt fb cs.
Proof.
  intros Hr Hqt. rewrite aligned_after_cons by done.
  unfold aligned_after. split.
  - intros (fa2 & fb2 & ca & cb & Hsplit & -> & Hfb2 & Hcat).
    rewrite <-!app_assoc in Hcat. apply app_inv_head in Hcat.
    apply app_eq_app in Hsplit as [m [[-> ->]|[-> Hm]]].
    + rewrite concat_app, <-!app_assoc in Hcat.
      symmetry in Hcat. apply app_self_nil in Hcat.
      apply app_eq_nil in Hcat as [_ Hcat].
      by apply app_eq_nil in Hcat as [? _].
    + destruct m as [|m0 m]; simpl in Hm.
      { rewrite app_nil_r in Hcat. symmetry in Hcat.
        apply app_self_nil in Hcat.
        by apply app_eq_nil in Hcat as [? _]. }
      simplify_eq. rewrite concat_app in Hcat. simpl in Hcat.
      rewrite <-!app_assoc in Hcat. do 2 apply app_inv_head in Hcat.
      by exists m, fb2, ca, cb.
  - intros (fa2 & fb2 & ca & cb & -> & -> & Hfb2 & Hcat).
    exists (fa ++ (qt ++ rt) :: fa2), fb2, ca, cb.
    split_and!; try done.
    + by rewrite <-app_assoc.
    + rewrite Hcat, concat_app. simpl. by rewrite <-!app_assoc.
Qed.

(** The open frame and the frames [fs] after it, delivered in the chunks
    [cs]. *)
Lemma chunks_frames cs : ∀ q r p o out fs ps,
  fed q o out → frame_of (q ++ r) p → Forall2 frame_of fs ps →
  concat cs = r ++ concat fs →
  (aligned_after r fs cs →
   decode_all {| decompressor := o |} cs = Some (Raise ZstdError))
  ∧ (¬ aligned_after r fs cs →
     ∃ o' out',
       decode_all {| decompressor := o |} cs
         = Some (Ok ({| decompressor := o' |}, out'))
       ∧ out ++ out' = p ++ concat ps ∧ at_boundary o').
Proof.
  induction cs as [|c cs IH]; intros q r p o out fs ps Hq Hf Hfs Hcat;
    pose proof (fed_rest_nonempty _ _ _ _ _ Hq Hf) as Hr.
  { simpl in Hcat. symmetry in Hcat. by apply app_eq_nil in Hcat as [? _]. }
  simpl in Hcat.
  assert ((∃ l, c = r ++ l ∧ concat fs = l ++ concat cs)
          ∨ (∃ l, l ≠ [] ∧ r = c ++ l ∧ concat cs = l ++ concat fs))
    as [(l & -> & Hrest)|(l & Hl & -> & Hrest)].
  { apply app_eq_app in Hcat as [l [[Hc Hrest]|[Hc Hrest]]];
      [left; by exists l|].
    destruct (decide (l = [])) as [->|Hl]; [|right; by exists l].
    left. exists []. rewrite app_nil_r in Hc. by rewrite app_nil_r. }
  - (* the chunk holds the rest of the open frame *)
    destruct (concat_split_at fs l (concat cs) Hrest)
      as (fa & fb & -> & [[-> Hcs]|(qt & rt & fb' & -> & Hqt & Hrt & -> & Hcs)]);
      apply Forall2_app_inv_l in Hfs as (pa & pb & Hfa & Hfb & ->).
    + destruct (decode_finish q r p o out fa pa [] decompressobj []
                  Hq Hf Hfa fed_nil) as (o1 & out1 & Hd & Hp & Hb & _).
      rewrite !app_nil_r in Hd. destruct (Hb eq_refl) as [He Hu].
      destruct fb as [|f0 fb].
      * apply Forall2_nil_inv_l in Hfb as ->. simpl in Hcs.
        split.
        -- intros (fa2 & fb2 & ca & cb & Hsplit & Hcs2 & Hfb2 & Hcat2)
             %aligned_after_cons; [|done]. exfalso.
           rewrite app_nil_r in Hsplit. subst fa cs.
           rewrite concat_app in Hcs. apply app_eq_nil in Hcs as [Hca _].
           rewrite Hca, app_nil_r in Hcat2. apply app_inv_head in Hcat2.
           rewrite concat_app in Hcat2. symmetry in Hcat2.
           apply app_self_nil in Hcat2.
           apply Forall2_app_inv_l in Hfa as (? & ? & _ & Hfb2' & _).
           by eapply concat_frames_nonempty.
        -- intros _. exists o1, (out1 ++ concat pa). simpl. rewrite Hd.
           rewrite decode_all_empties by done.
           rewrite !app_nil_r. split_and!; [done| |done].
           by rewrite app_assoc, Hp.
      * assert (concat cs ≠ []) as Hne.
        { rewrite Hcs. eapply concat_frames_nonempty; [exact Hfb|done]. }
        split.
        -- intros _. simpl. rewrite Hd.
           by rewrite chunks_after_boundary.
        -- intros Hna. exfalso. apply Hna.
           exists fa, (f0 :: fb), [r ++ concat fa], cs.
           split_and!; try done. simpl. by rewrite app_nil_r.
    + apply Forall2_cons_inv_l in Hfb as (pk & pb' & Hfk & Hfb' & ->).
      destruct (frame_prefix _ _ _ Hfk Hrt) as (ot & outt & Ht).
      destruct (decode_finish q r p o out fa pa qt ot outt Hq Hf Hfa Ht)
        as (o1 & out1 & Hd & Hp & _ & Ho).
      rewrite (Ho Hqt) in Hd.
      destruct (IH qt rt pk ot outt fb' pb' Ht Hfk Hfb' Hcs) as [IH1 IH2].
      pose proof (aligned_after_into r fa qt rt fb' cs Hr Hqt) as Heq.
      split.
      * intros Ha%Heq. simpl. by rewrite Hd, (IH1 Ha).
      * intros Hna. destruct IH2 as (o' & out' & Hd' & Hp' & Hb');
          [by rewrite <-Heq|].
        exists o', ((out1 ++ concat pa ++ outt) ++ out').
        simpl. rewrite Hd, Hd'. split_and!; [done| |done].
        rewrite concat_app. simpl.
        rewrite <-Hp, <-Hp', <-!app_assoc. done.
  - (* the chunk stays inside the open frame *)
    destruct (decode_partial q c l p o out Hq Hf Hl)
      as (o1 & out1 & Hd & Hq1).
    rewrite app_assoc in Hf.
    destruct (IH (q ++ c) l p o1 (out ++ out1) fs ps Hq1 Hf Hfs Hrest)
      as [IH1 IH2].
    pose proof (aligned_after_inside c l fs cs Hl) as Heq.
    split.
    + intros Ha%Heq. simpl. by rewrite Hd, (IH1 Ha).
    + intros Hna. destruct IH2 as (o' & out' & Hd' & Hp' & Hb');
        [by rewrite <-Heq|].
      exists o', (out1 ++ out'). simpl. rewrite Hd, Hd'.
      split_and!; [done| |done]. by rewrite app_assoc.
Qed.

(** X1.  A body made of the frames [fs] with the payloads [ps], delivered
    in any chunks [cs]: when no chunk ends exactly on a frame boundary
    inside the stream the output is all the payloads in order, and when one
    does the body fails with [ZstdError]. *)
Theorem frames_in_chunks fs ps cs :
  fs ≠ [] → Forall2 frame_of fs ps → concat cs = concat fs →
  (aligned_cut fs cs → body_output cs = Some (Raise ZstdError))
  ∧ (¬ aligned_cut fs cs → body_output cs = Some (Ok (concat ps))).
Proof.
  intros Hne Hfs Hcat. destruct Hfs as [|f0 p0 fs ps Hf0 Hfs]; [done|].
  pose proof (frame_nonempty _ _ Hf0) as Hf0ne.
  assert (aligned_cut (f0 :: fs) cs ↔ aligned_after f0 fs cs) as Heq.
  { split.
    - intros (fa & fb & ca & cb & Hsplit & -> & Hfa & Hfb & Hc).
      destruct fa as [|f fa]; [done|]. simpl in Hsplit. simplify_eq.
      by exists fa, fb, ca, cb.
    - intros (fa & fb & ca & cb & -> & -> & Hfb & Hc).
      by exists (f0 :: fa), fb, ca, cb. }
  destruct (chunks_frames cs [] f0 p0 decompressobj [] fs ps
              fed_nil Hf0 Hfs Hcat) as [H1 H2].
  unfold body_output, __init__. split.
  - intros Ha%Heq. by rewrite (H1 Ha).
  - intros Hna. destruct H2 as (o' & out' & -> & Hp & Hb);
      [by rewrite <-Heq|].
    rewrite flush_at_boundary by done. simpl in Hp.
    by rewrite Hp, app_nil_r.
Qed.

(** The loop over carry-over that holds the frames [fs] and then bytes [g]
    that a new object rejects. *)
Lemma decode_while_frames_raise fs ps g e :
  Forall2 frame_of fs ps → decompress decompressobj g = Raise e →
  ∀ fuel o parts,
    eof o = true → unused_data o = concat fs ++ g →
    length (concat fs ++ g) ≤ fuel →
    decode_while fuel o parts = Some (Raise e).
Proof.
  intros Hfs Hg.
  assert (g ≠ []) as Hgne.
  { intros ->. rewrite decompress_nil in Hg by apply new_not_eof. done. }
  induction Hfs as [|f p fs ps Hf Hfs IH];
    intros fuel o parts He Hu Hlen; simpl in *.
  - destruct fuel as [|fuel]; [destruct g; [done|simpl in Hlen; lia]|].
    rewrite decode_while_step, Hu, Hg by (by rewrite ?Hu). done.
  - pose proof (frame_nonempty _ _ Hf) as Hfne.
    destruct (frame_with_rest _ _ (concat fs ++ g) Hf)
      as (o1 & Hd1 & He1 & Hu1).
    rewrite <-app_assoc in Hu, Hlen.
    destruct fuel as [|fuel]; [destruct f; [done|simpl in Hlen; lia]|].
    rewrite decode_while_step, Hu, Hd1;
      [|done|rewrite Hu; by destruct f].
    apply IH; [done..|].
    rewrite !length_app in *. destruct f; [done|simpl in Hlen; lia].
Qed.

(** X2.  Bytes that a new decompression object rejects, placed after one
    or more complete frames in the same chunk, make that [decode()] call
    raise the object's error: the payloads of the frames completed in the
    call are not returned. *)
Theorem rejected_tail_loses_payloads fs ps g e :
  fs ≠ [] → Forall2 frame_of fs ps → decompress decompressobj g = Raise e →
  decode __init__ (concat fs ++ g) = Some (Raise e)
  ∧ body_output [concat fs ++ g] = Some (Raise e).
Proof.
  intros Hne Hfs Hg.
  assert (decode __init__ (concat fs ++ g) = Some (Raise e)) as Hd.
  { destruct Hfs as [|f0 p0 fs ps Hf0 Hfs]; [done|]. simpl.
    pose proof (frame_nonempty _ _ Hf0) as Hf0ne.
    destruct (frame_with_rest _ _ (concat fs ++ g) Hf0)
      as (o1 & Hd1 & He1 & Hu1).
    rewrite <-app_assoc, decode_nonempty by (by destruct f0).
    simpl. rewrite Hd1.
    rewrite (decode_while_frames_raise fs ps g e Hfs Hg); [done..|].
    rewrite !length_app. lia. }
  split; [done|]. unfold body_output. simpl. by rewrite Hd.
Qed.
End chunks.
End ZstdDecoderChunks.

(** ** More about _proxy_kwargs, request and Session *)

Module RequestMore.
Import RequestSpec.

Lemma dict_get_in items k v :
  dict_get items k = v → v = VNone ∨ (k, v) ∈ items.
Proof.
  induction items as [|[k' v'] items IH]; simpl; [by left; subst|].
  destruct (String.eqb k' k) eqn:Hk.
  - apply String.eqb_eq in Hk as ->. intros ->. right. by left.
  - intros [->|Hin]%IH; [by left|]. right. by right.
Qed.

Lemma truthy_not_none v : truthy v = true → is_none v = false.
Proof. by destruct v. Qed.

Section more.
Context `{Ver : HttpxVersion}.

(** X3.  [_proxy_kwargs] returns a dictionary with exactly one entry.  On
    httpx that still has the [proxies] parameter the entry is [proxies] and
    holds the argument as it is; otherwise the entry is [proxy], and an
    argument that is not a dictionary ([None], a URL) is passed on as it
    is. *)
Theorem _proxy_kwargs_shape proxy_or_map :
  (∃ v, _proxy_kwargs proxy_or_map
        = {[ (if _HAS_PROXIES_PARAM then "proxies" else "proxy") := v ]})
  ∧ (_HAS_PROXIES_PARAM = true →
     _proxy_kwargs proxy_or_map = {[ "proxies" := proxy_or_map ]})
  ∧ (_HAS_PROXIES_PARAM = false →
     (∀ items, proxy_or_map ≠ VDict items) →
     _proxy_kwargs proxy_or_map = {[ "proxy" := proxy_or_map ]}).
Proof.
  unfold _proxy_kwargs. split_and!.
  - destruct _HAS_PROXIES_PARAM; eauto.
  - by intros ->.
  - intros -> Hnd. by destruct proxy_or_map; [..|destruct (Hnd items)].
Qed.

(** X4.  With a proxy map on httpx without the [proxies] parameter, the
    keys [all://], [https], [http], [https://], [http://] are tried in this
    order and the first one whose value is truthy gives the proxy; keys
    with a missing or falsy value are passed over. *)
Theorem proxy_map_priority items pre k post :
  _HAS_PROXIES_PARAM = false →
  proxy_keys = pre ++ k :: post →
  Forall (λ k', truthy (dict_get items k') = false) pre →
  truthy (dict_get items k) = true →
  _proxy_kwargs (VDict items) = {[ "proxy" := dict_get items k ]}.
Proof.
  intros Hver Hkeys Hpre Hk. unfold _proxy_kwargs. rewrite Hver.
  assert (py_or (py_or (py_or (py_or (dict_get items "all://")
                                     (dict_get items "https"))
                              (dict_get items "http"))
                       (dict_get items "https://"))
                (dict_get items "http://") = dict_get items k) as ->.
  { unfold proxy_keys in Hkeys. unfold py_or.
    repeat (destruct pre as [|? pre]; simpl in Hkeys;
            [simplify_eq; repeat (rewrite ?Hk; simpl); try done
            |injection Hkeys as <- Hkeys;
             apply Forall_cons in Hpre as [Hfalsy Hpre];
             rewrite ?Hfalsy; clear Hfalsy]).
    by destruct pre. }
  destruct (dict_get items k); try done.
Qed.

(** X5.  A proxy map that has none of the five keys gives its first value
    in insertion order, and an empty map gives [None]. *)
Theorem proxy_map_fallback items :
  _HAS_PROXIES_PARAM = false →
  Forall (λ k, dict_get items k = VNone) proxy_keys →
  _proxy_kwargs (VDict items)
    = {[ "proxy" := match items with [] => VNone | (_, v) :: _ => v end ]}.
Proof.
  intros Hver Hkeys. unfold _proxy_kwargs. rewrite Hver.
  unfold proxy_keys in Hkeys.
  repeat (apply Forall_cons in Hkeys as [-> Hkeys]). simpl.
  by destruct items as [|[??] ?].
Qed.

(** X6.  The proxy taken from a proxy map is [None] or one of the values
    stored in the map. *)
Theorem proxy_map_member items v :
  _HAS_PROXIES_PARAM = false →
  _proxy_kwargs (VDict items) !! "proxy" = Some v →
  v = VNone ∨ ∃ k, (k, v) ∈ items.
Proof.
  intros Hver. unfold _proxy_kwargs. rewrite Hver, lookup_singleton_eq.
  intros [= <-].
  assert (∀ a b, (a = VNone ∨ ∃ k, (k, a) ∈ items) →
                 (b = VNone ∨ ∃ k, (k, b) ∈ items) →
                 py_or a b = VNone ∨ ∃ k, (k, py_or a b) ∈ items) as Hor.
  { intros a b Ha Hb. unfold py_or. by destruct (truthy a). }
  assert (∀ k, dict_get items k = VNone
               ∨ ∃ k', (k', dict_get items k) ∈ items) as Hget.
  { intros k. destruct (dict_get_in items k _ eq_refl); eauto. }
  set (proxy := py_or _ _).
  assert (proxy = VNone ∨ ∃ k, (k, proxy) ∈ items) as Hp
    by (subst proxy; auto 10).
  destruct proxy; try done.
  destruct items as [|[k0 v0] items]; [by left|].
  right. exists k0. by left.
Qed.

(** X7.  The client that the module-level [request] builds always has
    [verify=False] and [follow_redirects=True], whatever the proxy
    arguments are, and carries the proxy entry made from [proxies] when
    that is not [None] and from [proxy] otherwise. *)
Theorem request_client_kwargs method url proxy proxies kwargs :
  ∃ ck c,
    request method url proxy proxies kwargs = (ck, c)
    ∧ ck !! "verify" = Some (VBool false)
    ∧ ck !! "follow_redirects" = Some (VBool true)
    ∧ (∀ k v,
         _proxy_kwargs (if is_none proxies then proxy else proxies) !! k
           = Some v →
         ck !! k = Some v)
    ∧ (∀ k, k ≠ "verify" → k ≠ "follow_redirects" →
            ck !! k
            = _proxy_kwargs (if is_none proxies then proxy else proxies)
                !! k).
Proof.
  eexists _, _. split; [reflexivity|]. split_and!.
  - by rewrite lookup_union_r by (by apply _proxy_kwargs_keys).
  - by rewrite lookup_union_r by (by apply _proxy_kwargs_keys).
  - intros k v Hk. by apply lookup_union_Some_l.
  - intros k H1 H2. apply lookup_union_l.
    rewrite lookup_insert_ne by done. by rewrite lookup_singleton_ne.
Qed.

(** X8.  The module-level [request] passes every keyword argument of the
    caller on as it is, falsy values included (a [timeout=0] stays 0), and
    adds nothing but a missing [timeout]; the positional arguments are the
    method and the URL. *)
Theorem request_passes_kwargs method url proxy proxies
        (kwargs : gmap string value) :
  ∃ ck c,
    request method url proxy proxies kwargs = (ck, c)
    ∧ call_args c = [method; url]
    ∧ kwargs ⊆ call_kwargs c
    ∧ (∀ k, k ≠ "timeout" → call_kwargs c !! k = kwargs !! k)
    ∧ (∀ v, kwargs !! "timeout" = Some v → call_kwargs c = kwargs).
Proof.
  eexists _, _. split; [reflexivity|]. simpl. split_and!; [done| | |].
  - unfold with_default_timeout.
    destruct (kwargs !! "timeout") eqn:Ht; [done|]. by apply insert_subseteq.
  - intros k Hk. by apply with_default_timeout_other.
  - intros v Hv. by eapply with_default_timeout_present.
Qed.

(** X9.  [Session.request], [get] and [post] raise [AttributeError] exactly
    when the session has no client, which is the case for a new [Session()]
    until [proxies] is assigned; with a client they issue a call. *)
Theorem request_needs_client self args hdrs proxies kwargs :
  (Session._client self = None ↔
   Session.request self args hdrs proxies kwargs = Raise AttributeError)
  ∧ (is_Some (Session._client self) ↔
     ∃ r, Session.request self args hdrs proxies kwargs = Ok r)
  ∧ Session.request Session.__init__ args hdrs proxies kwargs
    = Raise AttributeError
  ∧ Session.get Session.__init__ args hdrs proxies kwargs
    = Raise AttributeError
  ∧ Session.post Session.__init__ args hdrs proxies kwargs
    = Raise AttributeError.
Proof.
  unfold Session.get, Session.post, Session.request.
  split_and!; try done.
  - destruct (Session._client self); split; done.
  - destruct (Session._client self); split.
    + eauto.
    + by eauto.
    + by intros [??].
    + by intros [??].
Qed.


(** X11.  A request changes nothing of the session but the state of its
    client, which it opens when unopened: headers, [verify], [proxies] and
    the client's keyword arguments stay, so the headers and the [proxies]
    given to one request do not reach the next one, which issues the same
    call as it would have before. *)
Theorem request_keeps_session self args hdrs proxies kwargs self' c :
  Session.request self args hdrs proxies kwargs = Ok (self', c) →
  Session.headers self' = Session.headers self
  ∧ Session.verify self' = Session.verify self
  ∧ Session.proxies self' = Session.proxies self
  ∧ (∃ cl cl',
       Session._client self = Some cl ∧ Session._client self' = Some cl'
       ∧ client_kwargs cl' = client_kwargs cl
       ∧ _state cl' = match _state cl with UNOPENED => OPENED | st => st end)
  ∧ (∀ args2 hdrs2 proxies2 kwargs2,
       ∃ s1 s2 c2,
         Session.request self args2 hdrs2 proxies2 kwargs2 = Ok (s1, c2)
         ∧ Session.request self' args2 hdrs2 proxies2 kwargs2 = Ok (s2, c2)).
Proof.
  unfold Session.request.
  destruct (Session._client self) as [cl|] eqn:Hcl; [|done].
  intros [= <- <-]. simpl. split_and!; try done.
  - exists cl, (Session.enter cl). split_and!; try done;
      unfold Session.enter; by destruct (_state cl) eqn:Hst.
  - intros args2 hdrs2 proxies2 kwargs2. eauto.
Qed.

(** X12.  [_close] closes a client only when it is opened: a session
    without a client, with a client never opened or with a client already
    closed is left as it is, so closing twice is closing once; an opened
    client becomes closed with its keyword arguments kept; headers,
    [verify] and [proxies] stay. *)
Theorem close_only_opened self :
  Session._close (Session._close self) = Session._close self
  ∧ Session.__aexit__ self = Session._close self
  ∧ (Session._client self = None → Session._close self = self)
  ∧ (∀ cl, Session._client self = Some cl → _state cl ≠ OPENED →
           Session._close self = self)
  ∧ (∀ cl, Session._client self = Some cl → _state cl = OPENED →
           Session._client (Session._close self)
           = Some {| client_kwargs := client_kwargs cl; _state := CLOSED |})
  ∧ Session.headers (Session._close self) = Session.headers self
  ∧ Session.verify (Session._close self) = Session.verify self
  ∧ Session.proxies (Session._close self) = Session.proxies self.
Proof.
  unfold Session.__aexit__, Session._close, Session.proxies.
  destruct (Session._client self) as [cl|] eqn:Hcl;
    [|rewrite ?Hcl; split_and!; done].
  destruct (_state cl) eqn:Hst; simpl; rewrite ?Hcl, ?Hst;
    split_and!; try done; intros; simplify_eq;
    first [congruence | reflexivity].
Qed.


(** X14.  [get] and [post] issue the call of [request] with the method name
    put before the positional arguments: the same headers and keyword
    arguments, the default timeout of 45 when none is given, and the same
    session afterwards. *)
Theorem get_post_method self args hdrs proxies
        (kwargs : gmap string value) s1 c1 :
  Session.get self args hdrs proxies kwargs = Ok (s1, c1) →
  ∃ c2,
    Session.post self args hdrs proxies kwargs = Ok (s1, c2)
    ∧ call_args c1 = VStr "get" :: args
    ∧ call_args c2 = VStr "post" :: args
    ∧ call_headers c1 = call_headers c2
    ∧ call_kwargs c1 = call_kwargs c2
    ∧ (kwargs !! "timeout" = None →
       call_kwargs c1 !! "timeout" = Some (VInt 45)).
Proof.
  unfold Session.get, Session.post.
  destruct (Session._client self) as [cl|] eqn:Hcl;
    [|unfold Session.request; by rewrite Hcl].
  rewrite !(session_request_ok _ cl) by done. intros [= <- <-].
  eexists. split; [done|]. simpl. split_and!; try done.
  intros Ht.
  assert (filter (λ kv : string * value, truthy kv.2 = true)
                 (with_default_timeout kwargs) !! "timeout"
          = Some (VInt 45)) as Hf.
  { apply map_lookup_filter_Some. split; [|done].
    by rewrite with_default_timeout_absent, lookup_insert_eq. }
  destruct (is_none proxies); [done|].
  by rewrite lookup_union_r by (by apply _proxy_kwargs_keys).
Qed.
End more.
End RequestMore.

(** ** The further theorems at concrete inputs *)

Module MoreScenarios.
Import RefCodec RefCodecFacts ZstdDecoder.

Lemma abg_frames_of : Forall2 frame_of abg_frames abg_payloads.
Proof. repeat constructor; apply compress_frame_of. Qed.

(** Every way to cut a list in two. *)
Ltac split_prefix H :=
  match type of H with
  | ?x = ?l ++ ?r =>
      let y := eval vm_compute in x in change (y = l ++ r) in H
  end;
  repeat match type of H with
         | _ = ?l ++ _ =>
             is_var l; destruct l as [|? l]; simpl in H;
             [|first [discriminate H | injection H as <- H]]
         end.

(** The three frames in chunks of 12 bytes, where the first chunk is the
    first frame, and in chunks of 7 bytes, where no chunk ends on a frame
    boundary. *)
Lemma frames_in_chunks_witness :
  body_output (chunks_of 34 12 (concat abg_frames)) = Some (Raise ZstdError)
  ∧ body_output (chunks_of 34 7 (concat abg_frames))
    = Some (Ok (concat abg_payloads)).
Proof.
  split.
  - apply (ZstdDecoderChunks.frames_in_chunks (Laws := ref_obj_laws)
             abg_frames abg_payloads);
      [done | apply abg_frames_of | reflexivity |].
    exists [compress (payload "alpha")],
           [compress (payload "beta"); compress (payload "gamma")],
           [compress (payload "alpha")],
           (chunks_of 33 12 (drop 12 (concat abg_frames))).
    by split_and!.
  - apply (ZstdDecoderChunks.frames_in_chunks (Laws := ref_obj_laws)
             abg_frames abg_payloads);
      [done | apply abg_frames_of | reflexivity |].
    intros (fa & fb & ca & cb & Hfs & Hcs & Hfa & Hfb & Hcat).
    split_prefix Hfs; split_prefix Hcs; subst; try done;
      apply (f_equal length) in Hcat; vm_compute in Hcat; discriminate.
Defined.

(** The frame of [b"alpha"] followed by a byte that starts no frame. *)
Lemma rejected_tail_loses_payloads_witness :
  decode __init__ (concat [compress (payload "alpha")] ++ [x2a])
    = Some (Raise ZstdError)
  ∧ body_output [concat [compress (payload "alpha")] ++ [x2a]]
    = Some (Raise ZstdError).
Proof.
  apply (ZstdDecoderChunks.rejected_tail_loses_payloads
           (Laws := ref_obj_laws) _ [payload "alpha"]);
    [done | repeat constructor; apply compress_frame_of | reflexivity].
Defined.

(** A proxy URL and [None] through both versions of the shim. *)
Lemma _proxy_kwargs_shape_witness :
  _proxy_kwargs (Ver := {| _HAS_PROXIES_PARAM := true |})
    (VDict [("https://", VStr "http://proxy:3128")])
    = {[ "proxies" := VDict [("https://", VStr "http://proxy:3128")] ]}
  ∧ _proxy_kwargs (Ver := {| _HAS_PROXIES_PARAM := false |}) VNone
    = {[ "proxy" := VNone ]}.
Proof.
  split.
  - by apply (RequestMore._proxy_kwargs_shape
                (Ver := {| _HAS_PROXIES_PARAM := true |})).
  - by apply (RequestMore._proxy_kwargs_shape
                (Ver := {| _HAS_PROXIES_PARAM := false |})).
Defined.

(** A map whose [https] entry is empty and whose [http] entry is a URL,
    listed after an [https://] entry. *)
Lemma proxy_map_priority_witness :
  _proxy_kwargs (Ver := {| _HAS_PROXIES_PARAM := false |})
    (VDict [("https://", VStr "http://last:1"); ("https", VStr "");
            ("http", VStr "http://proxy:3128")])
  = {[ "proxy" := VStr "http://proxy:3128" ]}.
Proof.
  assert (Forall (λ k', truthy (dict_get
            [("https://", VStr "http://last:1"); ("https", VStr "");
             ("http", VStr "http://proxy:3128")] k') = false)
            ["all://"; "https"]) as Hpre by (by repeat constructor).
  exact (RequestMore.proxy_map_priority
           (Ver := {| _HAS_PROXIES_PARAM := false |})
           _ ["all://"; "https"] "http" ["https://"; "http://"]
           eq_refl eq_refl Hpre eq_refl).
Defined.

(** A map with one entry under another key. *)
Lemma proxy_map_fallback_witness :
  _proxy_kwargs (Ver := {| _HAS_PROXIES_PARAM := false |})
    (VDict [("socks5://", VStr "socks5://proxy:1080")])
  = {[ "proxy" := VStr "socks5://proxy:1080" ]}.
Proof.
  assert (Forall (λ k, dict_get [("socks5://", VStr "socks5://proxy:1080")] k
                       = VNone) proxy_keys) as Hkeys
    by (by repeat constructor).
  exact (RequestMore.proxy_map_fallback
           (Ver := {| _HAS_PROXIES_PARAM := false |})
           [("socks5://", VStr "socks5://proxy:1080")] eq_refl Hkeys).
Defined.

Lemma proxy_map_member_witness :
  VStr "socks5://proxy:1080" = VNone
  ∨ ∃ k, (k, VStr "socks5://proxy:1080")
         ∈ [("socks5://", VStr "socks5://proxy:1080")].
Proof.
  apply (RequestMore.proxy_map_member
           (Ver := {| _HAS_PROXIES_PARAM := false |}));
    [reflexivity | vm_compute; reflexivity].
Defined.

(** A session with a client, one request with headers and a proxy of its
    own, then a plain request. *)
Lemma request_keeps_session_witness :
  ∃ s1 c1,
    Session.request (Ver := {| _HAS_PROXIES_PARAM := false |})
      (Session.set_proxies (Ver := {| _HAS_PROXIES_PARAM := false |})
         Session.__init__ VNone)
      [VStr "get"; VStr "https://example.org/"]
      (Some {[ "Accept" := VStr "*/*" ]}) (VStr "http://proxy:3128") ∅
      = Ok (s1, c1)
    ∧ Session.headers s1 = ∅
    ∧ Session.proxies s1 = VNone.
Proof.
  destruct (RequestMore.request_keeps_session
              (Ver := {| _HAS_PROXIES_PARAM := false |})
              (Session.set_proxies (Ver := {| _HAS_PROXIES_PARAM := false |})
                 Session.__init__ VNone)
              [VStr "get"; VStr "https://example.org/"]
              (Some {[ "Accept" := VStr "*/*" ]}) (VStr "http://proxy:3128") ∅
              _ _ eq_refl) as (Hh & _ & Hp & _).
  eexists _, _. split; [reflexivity|].
  split; [exact Hh | exact Hp].
Defined.

(** An opened client is closed once. *)
Lemma close_only_opened_witness :
  Session._client
    (Session._close
       {| Session.headers := ∅; Session.verify := false;
          Session._client := Some {| client_kwargs := ∅; _state := OPENED |};
          Session._proxies := VNone |})
  = Some {| client_kwargs := ∅; _state := CLOSED |}.
Proof.
  destruct (RequestMore.close_only_opened
              {| Session.headers := ∅; Session.verify := false;
                 Session._client :=
                   Some {| client_kwargs := ∅; _state := OPENED |};
                 Session._proxies := VNone |}) as (_ & _ & _ & _ & H & _).
  exact (H _ eq_refl eq_refl).
Defined.


Lemma get_post_method_witness :
  ∃ s1 c1 c2,
    Session.get (Ver := {| _HAS_PROXIES_PARAM := false |})
      (Session.set_proxies (Ver := {| _HAS_PROXIES_PARAM := false |})
         Session.__init__ VNone)
      [VStr "https://example.org/"] None VNone ∅
      = Ok (s1, c1)
    ∧ Session.post (Ver := {| _HAS_PROXIES_PARAM := false |})
        (Session.set_proxies (Ver := {| _HAS_PROXIES_PARAM := false |})
           Session.__init__ VNone)
        [VStr "https://example.org/"] None VNone ∅
        = Ok (s1, c2)
    ∧ call_kwargs c1 = call_kwargs c2.
Proof.
  destruct (RequestMore.get_post_method
              (Ver := {| _HAS_PROXIES_PARAM := false |})
              (Session.set_proxies (Ver := {| _HAS_PROXIES_PARAM := false |})
                 Session.__init__ VNone)
              [VStr "https://example.org/"] None VNone ∅ _ _ eq_refl)
    as (c2 & Hpost & _ & _ & _ & Hk & _).
  eexists _, _, c2. split; [reflexivity|]. by split.
Defined.
End MoreScenarios.
